(** * browser-mock-api: route matching, middleware, events, state stores
      and the fetch wrapper, embedded from the TypeScript sources.

    JavaScript strings are modelled as byte strings ([string]); a string
    with characters outside ASCII is read as its UTF-8 encoding.  Objects
    with identity (stores, listeners, request records) live in explicit
    heaps indexed by locations. *)

From stdpp Require Import base option list gmap strings.
From Stdlib Require Import NArith Lia Ascii.

Local Open Scope string_scope.
Local Open Scope list_scope.
Local Open Scope nat_scope.

(** ** JavaScript basics shared by every component *)

Module Js.

(** What a [throw] carries: an [Error] of some class with its message, or
    a value that is not an [Error]. *)
Inductive JsError : Type :=
| URIError (msg : string)
| TypeError (msg : string)
| Error (msg : string)
| Thrown (v : string).

(** Outcome of a call that may throw (or of a promise that may reject). *)
Inductive Result (A : Type) : Type :=
| Ok (a : A)
| Throw (e : JsError).
Arguments Ok {A} a.
Arguments Throw {A} e.

Definition bind {A B} (r : Result A) (k : A → Result B) : Result B :=
  match r with
  | Ok a => k a
  | Throw e => Throw e
  end.

Definition is_ok {A} (r : Result A) : bool :=
  match r with Ok _ => true | Throw _ => false end.

Global Instance JsError_eq_dec : EqDecision JsError.
Proof. solve_decision. Defined.

(** *** [Map]: insertion-ordered, [set] on a present key keeps its slot *)

Section JsMap.
Context {K V : Type} `{EqDecision K}.

Fixpoint map_set (k : K) (v : V) (m : list (K * V)) : list (K * V) :=
  match m with
  | [] => [(k, v)]
  | (k', v') :: m' =>
      if decide (k = k') then (k, v) :: m' else (k', v') :: map_set k v m'
  end.

Fixpoint map_get (k : K) (m : list (K * V)) : option V :=
  match m with
  | [] => None
  | (k', v') :: m' => if decide (k = k') then Some v' else map_get k m'
  end.

Definition map_has (k : K) (m : list (K * V)) : bool :=
  match map_get k m with Some _ => true | None => false end.

Fixpoint map_delete (k : K) (m : list (K * V)) : list (K * V) :=
  match m with
  | [] => []
  | (k', v') :: m' =>
      if decide (k = k') then m' else (k', v') :: map_delete k m'
  end.
End JsMap.

(** *** [decodeURIComponent] (ECMAScript Decode with an empty reserved set) *)

Definition hexDigit (c : ascii) : option N :=
  let n := N_of_ascii c in
  if (48 <=? n)%N && (n <=? 57)%N then Some (n - 48)%N
  else if (65 <=? n)%N && (n <=? 70)%N then Some (n - 55)%N
  else if (97 <=? n)%N && (n <=? 102)%N then Some (n - 87)%N
  else None.

(** One unit of the input: a plain character or a [%XX] escape. *)
Inductive Unit_ : Type :=
| Plain (c : ascii)
| Escape (b : N).

(** Every ["%"] must be followed by two hexadecimal digits. *)
Fixpoint escapes (s : string) : option (list Unit_) :=
  match s with
  | EmptyString => Some []
  | String c rest =>
      if decide (c = "%"%char) then
        match rest with
        | String h (String l rest') =>
            match hexDigit h, hexDigit l with
            | Some hi, Some lo =>
                match escapes rest' with
                | Some us => Some (Escape (16 * hi + lo)%N :: us)
                | None => None
                end
            | _, _ => None
            end
        | _ => None
        end
      else
        match escapes rest with
        | Some us => Some (Plain c :: us)
        | None => None
        end
  end.

Definition between (lo hi b : N) : bool := ((lo <=? b) && (b <=? hi))%N.
Definition cont (b : N) : bool := between 128 191 b.

(** Well-formed UTF-8 byte sequences of two, three and four octets. *)
Definition utf8_2 (b1 b2 : N) : bool := between 194 223 b1 && cont b2.
Definition utf8_3 (b1 b2 b3 : N) : bool :=
  ((b1 =? 224)%N && between 160 191 b2 && cont b3)
  || (between 225 236 b1 && cont b2 && cont b3)
  || ((b1 =? 237)%N && between 128 159 b2 && cont b3)
  || (between 238 239 b1 && cont b2 && cont b3).
Definition utf8_4 (b1 b2 b3 b4 : N) : bool :=
  ((b1 =? 240)%N && between 144 191 b2 && cont b3 && cont b4)
  || (between 241 243 b1 && cont b2 && cont b3 && cont b4)
  || ((b1 =? 244)%N && between 128 143 b2 && cont b3 && cont b4).

Definition chr (b : N) : ascii := ascii_of_N b.

(** Octets below 0x80 stand for themselves; a lead octet announces how many
    escapes follow, and the group must be well-formed UTF-8. *)
Fixpoint decodeUnits (us : list Unit_) : option string :=
  match us with
  | [] => Some EmptyString
  | Plain c :: rest => String c <$> decodeUnits rest
  | Escape b1 :: rest =>
      if (b1 <? 128)%N then String (chr b1) <$> decodeUnits rest
      else if between 192 223 b1 then
        match rest with
        | Escape b2 :: rest2 =>
            if utf8_2 b1 b2
            then (λ t, String (chr b1) (String (chr b2) t)) <$> decodeUnits rest2
            else None
        | _ => None
        end
      else if between 224 239 b1 then
        match rest with
        | Escape b2 :: Escape b3 :: rest3 =>
            if utf8_3 b1 b2 b3
            then (λ t, String (chr b1) (String (chr b2) (String (chr b3) t)))
                   <$> decodeUnits rest3
            else None
        | _ => None
        end
      else if between 240 247 b1 then
        match rest with
        | Escape b2 :: Escape b3 :: Escape b4 :: rest4 =>
            if utf8_4 b1 b2 b3 b4
            then (λ t, String (chr b1) (String (chr b2)
                         (String (chr b3) (String (chr b4) t))))
                   <$> decodeUnits rest4
            else None
        | _ => None
        end
      else None
  end.

Definition decodeURIComponent (s : string) : Result string :=
  match escapes s ≫= decodeUnits with
  | Some t => Ok t
  | None => Throw (URIError "URI malformed")
  end.

(** [obj[name] = v] for a string [v] on an object created by [{}], seen as
    the mapping of its own properties.  Under the name ["__proto__"] the
    assignment reaches the setter inherited from [Object.prototype], which
    ignores a value that is neither an object nor [null]: no own property is
    written.  Every other name gets an own property. *)
Definition assign (name v : string) (obj : gmap string string)
    : gmap string string :=
  if decide (name = "__proto__") then obj else <[name := v]> obj.

(** [String.prototype.split(sep)[0]] for a one-character separator. *)
Fixpoint split_head (sep : ascii) (s : string) : string :=
  match s with
  | EmptyString => EmptyString
  | String c rest =>
      if decide (c = sep) then EmptyString else String c (split_head sep rest)
  end.

(** [toUpperCase] on the ASCII letters (other bytes are kept). *)
Definition upper_ascii (c : ascii) : ascii :=
  let n := N_of_ascii c in
  if between 97 122 n then ascii_of_N (n - 32) else c.

Fixpoint toUpperCase_ascii (s : string) : string :=
  match s with
  | EmptyString => EmptyString
  | String c rest => String (upper_ascii c) (toUpperCase_ascii rest)
  end.

End Js.

Import Js.

Example decode_space : decodeURIComponent "hello%20world" = Ok "hello world".
Proof. reflexivity. Qed.

Example decode_lone_percent : decodeURIComponent "%" = Throw (URIError "URI malformed").
Proof. reflexivity. Qed.

Example decode_plain : decodeURIComponent "123" = Ok "123".
Proof. reflexivity. Qed.

(** A well-formed three-octet group is kept as its octets; an overlong
    encoding, a lone continuation octet and a truncated escape are refused. *)
Example decode_three_octets :
  is_ok (decodeURIComponent "%E4%BD%A0") = true ∧
  decodeURIComponent "%C0%80" = Throw (URIError "URI malformed") ∧
  decodeURIComponent "%80" = Throw (URIError "URI malformed") ∧
  decodeURIComponent "a%2" = Throw (URIError "URI malformed").
Proof. by split_and!. Qed.

(** ** Route matcher (route-matcher.ts) *)

Module RouteMatcher.

(** The fields of a path-to-regexp [Key] the matcher reads: [name], a
    string or a number used as a property name. *)
Record Key : Type := { name : string }.

(** A [RegExpExecArray]: index 0 is the whole match, then one slot per
    capture group, [None] for a group that did not take part. *)
Definition RegExpExecArray : Type := list (option string).

(** A compiled pattern, seen through [exec]; the patterns path-to-regexp
    builds carry no [g] or [y] flag, so [exec] keeps no state. *)
Record RegExp : Type := { exec : string → option RegExpExecArray }.

Inductive HttpMethod : Type := GET | POST | PUT | PATCH | DELETE.

Definition method_string (m : HttpMethod) : string :=
  match m with
  | GET => "GET" | POST => "POST" | PUT => "PUT"
  | PATCH => "PATCH" | DELETE => "DELETE"
  end.

Record MockOptions : Type := {
  delay : option Z;
  headers : option (gmap string string)
}.

Definition no_options : MockOptions := {| delay := None; headers := None |}.

Section WithLibrary.
(** The handler type is opaque to the matcher. *)
Context {MockHandler : Type}.
(** [String.prototype.toUpperCase]. *)
Variable toUpperCase : string → string.
(** [pathToRegexp(path, keys)] of path-to-regexp 6: the compiled pattern
    and the keys it pushed, or the [TypeError] it throws. *)
Variable pathToRegexp : string → Result (RegExp * list Key).

Record RouteEntry : Type := {
  pattern : RegExp;
  keys : list Key;
  handler : MockHandler;
  options : MockOptions;
  originalPath : string
}.

Record MatchResult : Type := {
  mr_handler : MockHandler;
  mr_params : gmap string string;
  mr_options : MockOptions
}.

Record RouteInfo : Type := {
  ri_method : string;
  ri_path : string;
  ri_options : MockOptions
}.

(** [this.routes]: a [Map<string, RouteEntry>]. *)
Local Abbreviation Routes := (list (string * RouteEntry)).

Definition routeKey (method : HttpMethod) (path : string) : string :=
  toUpperCase (method_string method) +:+ ":" +:+ path.

Definition register (method : HttpMethod) (path : string)
    (h : MockHandler) (o : MockOptions) (routes : Routes) : Result Routes :=
  bind (pathToRegexp path) (λ '(pattern, keys),
    Ok (map_set (routeKey method path)
          {| pattern := pattern; keys := keys; handler := h;
             options := o; originalPath := path |} routes)).

(** [keys.forEach((key, index) => ...)], started at [index]. *)
Fixpoint extractParams_from (index : nat) (keys : list Key)
    (m : RegExpExecArray) (params : gmap string string)
    : Result (gmap string string) :=
  match keys with
  | [] => Ok params
  | key :: rest =>
      match m !! (index + 1) with
      | Some (Some value) =>
          bind (decodeURIComponent value) (λ v,
            extractParams_from (S index) rest m (assign (name key) v params))
      | _ => extractParams_from (S index) rest m params
      end
  end.

Definition extractParams (keys : list Key) (m : RegExpExecArray)
    : Result (gmap string string) :=
  extractParams_from 0 keys m ∅.

Definition routeMethod (routeKey : string) : string :=
  split_head ":"%char routeKey.

(** What [match] does once it stands on an entry whose pattern matched. *)
Definition matched (route : RouteEntry) (m : RegExpExecArray)
    : Result (option MatchResult) :=
  bind (extractParams (keys route) m) (λ params,
    Ok (Some {| mr_handler := handler route; mr_params := params;
                mr_options := options route |})).

Fixpoint match_from (routes : Routes) (normalizedMethod path : string)
    : Result (option MatchResult) :=
  match routes with
  | [] => Ok None
  | (routeKey, route) :: rest =>
      if decide (routeMethod routeKey = normalizedMethod) then
        match exec (pattern route) path with
        | Some m => matched route m
        | None => match_from rest normalizedMethod path
        end
      else match_from rest normalizedMethod path
  end.

Definition match_ (routes : Routes) (method path : string)
    : Result (option MatchResult) :=
  match_from routes (toUpperCase method) path.

Definition getRoutes (routes : Routes) : list RouteInfo :=
  (λ '(routeKey, route),
     {| ri_method := routeMethod routeKey;
        ri_path := originalPath route;
        ri_options := options route |}) <$> routes.

Definition clear (routes : Routes) : Routes := [].

Definition unregister (method : HttpMethod) (path : string)
    (routes : Routes) : bool * Routes :=
  (map_has (routeKey method path) routes,
   map_delete (routeKey method path) routes).

(** An entry takes the request when its method part equals the
    normalised method and its pattern accepts the path. *)
Definition takes (normalizedMethod path : string)
    (kr : string * RouteEntry) : Prop :=
  routeMethod kr.1 = normalizedMethod ∧
  is_Some (exec (pattern kr.2) path).

(** *** Facts about the ordered map *)

Lemma map_set_at {V : Type} (k : string) (v v0 : V) (m : list (string * V)) (i : nat) :
  NoDup m.*1 → m !! i = Some (k, v0) → map_set k v m = <[i := (k, v)]> m.
Proof.
  revert i. induction m as [|[k' v'] m IH]; intros i Hnd Hi; [done|].
  simpl in Hnd. apply NoDup_cons in Hnd as [Hk' Hnd].
  destruct i as [|i]; simpl in *.
  - injection Hi as -> ->. by rewrite decide_True.
  - rewrite decide_False.
    + f_equal. by apply IH.
    + intros ->. apply Hk'. apply list_elem_of_fmap.
      exists (k', v0). split; [done|]. by eapply list_elem_of_lookup_2.
Qed.

Lemma map_set_fresh {V : Type} (k : string) (v : V) (m : list (string * V)) :
  k ∉ m.*1 → map_set k v m = m ++ [(k, v)].
Proof.
  induction m as [|[k' v'] m IH]; intros Hk; [done|]. simpl in *.
  apply not_elem_of_cons in Hk as [Hne Hk].
  rewrite decide_False by done. f_equal. by apply IH.
Qed.

(** *** Facts about [match] *)

Lemma match_from_skip (pre rest : Routes) (nm path : string) :
  Forall (λ kr, ¬ takes nm path kr) pre →
  match_from (pre ++ rest) nm path = match_from rest nm path.
Proof.
  induction pre as [|[k r] pre IH]; intros Hpre; [done|].
  apply Forall_cons in Hpre as [Hkr Hpre]. simpl.
  destruct (decide (routeMethod k = nm)) as [Hm|Hm]; [|by apply IH].
  destruct (exec (pattern r) path) as [m|] eqn:He; [|by apply IH].
  exfalso. apply Hkr. split; [done|]. simpl. rewrite He. by eexists.
Qed.

Lemma match_from_hit (key : string) (route : RouteEntry) (post : Routes)
    (nm path : string) (m : RegExpExecArray) :
  routeMethod key = nm → exec (pattern route) path = Some m →
  match_from ((key, route) :: post) nm path = matched route m.
Proof. intros Hm He. simpl. rewrite decide_True by done. by rewrite He. Qed.

(** The registry splits at the first entry that takes the request, if any. *)
Lemma first_taker (routes : Routes) (nm path : string) :
  Forall (λ kr, ¬ takes nm path kr) routes ∨
  ∃ pre key route post m,
    routes = pre ++ (key, route) :: post ∧
    Forall (λ kr, ¬ takes nm path kr) pre ∧
    routeMethod key = nm ∧ exec (pattern route) path = Some m.
Proof.
  induction routes as [|[k r] routes IH]; [by left|].
  destruct (decide (routeMethod k = nm)) as [Hm|Hm].
  - destruct (exec (pattern r) path) as [m|] eqn:He.
    + right. exists [], k, r, routes, m. by repeat split.
    + destruct IH as [Hall|(pre & key & route & post & m & -> & Hpre & Hk & He')].
      * left. constructor; [|done]. intros [_ [x Hx]]. simpl in Hx. congruence.
      * right. exists ((k, r) :: pre), key, route, post, m. repeat split; try done.
        constructor; [|done]. intros [_ [x Hx]]. simpl in Hx. congruence.
  - destruct IH as [Hall|(pre & key & route & post & m & -> & Hpre & Hk & He')].
    + left. constructor; [|done]. by intros [? _].
    + right. exists ((k, r) :: pre), key, route, post, m. repeat split; try done.
      constructor; [|done]. by intros [? _].
Qed.

Lemma match_from_none (routes : Routes) (nm path : string) :
  Forall (λ kr, ¬ takes nm path kr) routes → match_from routes nm path = Ok None.
Proof.
  intros H. rewrite <- (app_nil_r routes). by rewrite match_from_skip.
Qed.

(** A capture the keys reach: slot [i + 1] of the match, for the key at
    position [i]. *)
Definition captured (ks : list Key) (m : RegExpExecArray)
    (n value : string) : Prop :=
  ∃ i key, ks !! i = Some key ∧ name key = n ∧ m !! (i + 1) = Some (Some value).

Lemma extractParams_from_ok (ks : list Key) (m : RegExpExecArray)
    (index : nat) (acc params : gmap string string) :
  extractParams_from index ks m acc = Ok params →
  ∀ n v, params !! n = Some v →
    acc !! n = Some v ∨
    ∃ i key value, ks !! i = Some key ∧ name key = n ∧
      m !! (index + i + 1) = Some (Some value) ∧ decodeURIComponent value = Ok v.
Proof.
  revert index acc. induction ks as [|key ks IH]; intros index acc H n v Hn; simpl in H.
  - injection H as ->. by left.
  - destruct (m !! (index + 1)) as [[value|]|] eqn:Hm.
    + destruct (decodeURIComponent value) as [v'|e] eqn:Hd; simpl in H; [|done].
      destruct (IH _ _ H n v Hn) as [Hacc|(i & k & val & Hi & Hk & Hv & Hdv)].
      * unfold assign in Hacc.
        destruct (decide (name key = "__proto__")) as [_|_]; [by left|].
        destruct (decide (name key = n)) as [<-|Hne].
        -- rewrite lookup_insert_eq in Hacc. injection Hacc as ->.
           right. exists 0, key, value. repeat split; try done.
           by replace (index + 0 + 1) with (index + 1) by lia.
        -- rewrite lookup_insert_ne in Hacc by done. by left.
      * right. exists (S i), k, val. repeat split; try done.
        by replace (index + S i + 1) with (S index + i + 1) by lia.
    + destruct (IH _ _ H n v Hn) as [Hacc|(i & k & val & Hi & Hk & Hv & Hdv)]; [by left|].
      right. exists (S i), k, val. repeat split; try done.
      by replace (index + S i + 1) with (S index + i + 1) by lia.
    + destruct (IH _ _ H n v Hn) as [Hacc|(i & k & val & Hi & Hk & Hv & Hdv)]; [by left|].
      right. exists (S i), k, val. repeat split; try done.
      by replace (index + S i + 1) with (S index + i + 1) by lia.
Qed.

Lemma extractParams_from_throw (ks : list Key) (m : RegExpExecArray)
    (index : nat) (acc : gmap string string) (err : JsError) :
  extractParams_from index ks m acc = Throw err →
  ∃ i key value, ks !! i = Some key ∧
    m !! (index + i + 1) = Some (Some value) ∧ decodeURIComponent value = Throw err.
Proof.
  revert index acc. induction ks as [|key ks IH]; intros index acc H; simpl in H; [done|].
  destruct (m !! (index + 1)) as [[value|]|] eqn:Hm.
  - destruct (decodeURIComponent value) as [v'|e] eqn:Hd; simpl in H.
    + destruct (IH _ _ H) as (i & k & val & Hi & Hv & Hdv).
      exists (S i), k, val. repeat split; try done.
      by replace (index + S i + 1) with (S index + i + 1) by lia.
    + injection H as ->. exists 0, key, value. repeat split; try done.
      by replace (index + 0 + 1) with (index + 1) by lia.
  - destruct (IH _ _ H) as (i & k & val & Hi & Hv & Hdv).
    exists (S i), k, val. repeat split; try done.
    by replace (index + S i + 1) with (S index + i + 1) by lia.
  - destruct (IH _ _ H) as (i & k & val & Hi & Hv & Hdv).
    exists (S i), k, val. repeat split; try done.
    by replace (index + S i + 1) with (S index + i + 1) by lia.
Qed.

(** When the extraction returns, every capture the keys reach decoded. *)
Lemma extractParams_from_decodes (ks : list Key) (m : RegExpExecArray)
    (index : nat) (acc params : gmap string string) :
  extractParams_from index ks m acc = Ok params →
  ∀ i key value, ks !! i = Some key →
    m !! (index + i + 1) = Some (Some value) →
    ∃ v, decodeURIComponent value = Ok v.
Proof.
  revert index acc. induction ks as [|key ks IH];
    intros index acc H i k value Hi Hv; [done|].
  simpl in H. destruct i as [|i]; simpl in Hi.
  - replace (index + 0 + 1) with (index + 1) in Hv by lia. rewrite Hv in H.
    destruct (decodeURIComponent value) as [v|e]; [by exists v|done].
  - replace (index + S i + 1) with (S index + i + 1) in Hv by lia.
    destruct (m !! (index + 1)) as [[value0|]|].
    + destruct (decodeURIComponent value0) as [v0|e]; simpl in H; [|done].
      by eapply IH.
    + by eapply IH.
    + by eapply IH.
Qed.

(** The extraction returns when every capture the keys reach decodes. *)
Lemma extractParams_from_returns (ks : list Key) (m : RegExpExecArray)
    (index : nat) (acc : gmap string string) :
  (∀ i key value, ks !! i = Some key →
     m !! (index + i + 1) = Some (Some value) →
     ∃ v, decodeURIComponent value = Ok v) →
  ∃ params, extractParams_from index ks m acc = Ok params.
Proof.
  intros Hall.
  destruct (extractParams_from index ks m acc) as [params|err] eqn:Hx;
    [by exists params|].
  destruct (extractParams_from_throw _ _ _ _ _ Hx) as (i & k & value & Hi & Hv & Hd).
  destruct (Hall i k value Hi Hv) as [v Hok]. congruence.
Qed.

Lemma decodeURIComponent_throws (s : string) (err : JsError) :
  decodeURIComponent s = Throw err → err = URIError "URI malformed".
Proof.
  unfold decodeURIComponent. destruct (escapes s ≫= decodeUnits); congruence.
Qed.

(** C1, as the code has it. When several entries registered for the
    request's method accept the path, [match] answers from the earliest of
    them alone, whatever entries come after it: it returns that entry's
    handler, the parameters extracted from its captures and its options when
    those captures decode, and it throws what that extraction throws when
    they do not. *)
Theorem match_first_match_wins (pre post : Routes) (key : string)
    (route : RouteEntry) (method path : string) (m : RegExpExecArray) :
  Forall (λ kr, ¬ takes (toUpperCase method) path kr) pre →
  routeMethod key = toUpperCase method →
  exec (pattern route) path = Some m →
  match_ (pre ++ (key, route) :: post) method path =
    bind (extractParams (keys route) m) (λ params,
      Ok (Some {| mr_handler := handler route; mr_params := params;
                  mr_options := options route |})) ∧
  ((∀ n value, captured (keys route) m n value →
      ∃ v, decodeURIComponent value = Ok v) →
   ∃ params,
     extractParams (keys route) m = Ok params ∧
     match_ (pre ++ (key, route) :: post) method path =
       Ok (Some {| mr_handler := handler route; mr_params := params;
                   mr_options := options route |})) ∧
  (∀ n value, captured (keys route) m n value →
     is_ok (decodeURIComponent value) = false →
     match_ (pre ++ (key, route) :: post) method path =
       Throw (URIError "URI malformed")).
Proof.
  intros Hpre Hk He.
  assert (Heq : match_ (pre ++ (key, route) :: post) method path =
                bind (extractParams (keys route) m) (λ params,
                  Ok (Some {| mr_handler := handler route; mr_params := params;
                              mr_options := options route |}))).
  { unfold match_. rewrite match_from_skip by done.
    by rewrite (match_from_hit _ _ _ _ _ m). }
  split_and!; [done| |].
  - intros Hall.
    destruct (extractParams_from_returns (keys route) m 0 ∅) as [params Hx].
    { intros i k value Hi Hv. apply (Hall (name k)). by exists i, k. }
    exists params. split; [done|]. rewrite Heq. unfold extractParams.
    by rewrite Hx.
  - intros n value (i & k & Hi & _ & Hv) Hbad. rewrite Heq.
    unfold extractParams.
    destruct (extractParams_from 0 (keys route) m ∅) as [params|err] eqn:Hx; simpl.
    + destruct (extractParams_from_decodes _ _ _ _ _ Hx i k value Hi Hv) as [v Hd].
      by rewrite Hd in Hbad.
    + destruct (extractParams_from_throw _ _ _ _ _ Hx)
        as (i' & k' & value' & _ & _ & Hd).
      by rewrite (decodeURIComponent_throws _ _ Hd).
Qed.

(** C6, as the code has it. [match] has three outcomes.  When no entry
    takes the request it returns the no-match signal.  Otherwise the first
    entry that takes it decides: a capture of that entry that is not a
    well-formed percent-encoding makes [match] throw the [URIError] of
    [decodeURIComponent]; and [match] either returns a result, every capture
    of that entry decodes and the parameter values are decoded captures, or
    it throws the error of a capture that does not decode. *)
Theorem match_outcomes (routes : Routes) (method path : string) :
  (match_ routes method path = Ok None ∧
   Forall (λ kr, ¬ takes (toUpperCase method) path kr) routes)
  ∨ ∃ pre key route post m,
      routes = pre ++ (key, route) :: post ∧
      Forall (λ kr, ¬ takes (toUpperCase method) path kr) pre ∧
      routeMethod key = toUpperCase method ∧
      exec (pattern route) path = Some m ∧
      (∀ n value,
         captured (keys route) m n value →
         is_ok (decodeURIComponent value) = false →
         match_ routes method path = Throw (URIError "URI malformed")) ∧
      ((∃ params,
          match_ routes method path =
            Ok (Some {| mr_handler := handler route; mr_params := params;
                        mr_options := options route |}) ∧
          (∀ n value, captured (keys route) m n value →
             ∃ v, decodeURIComponent value = Ok v) ∧
          ∀ n v, params !! n = Some v →
            ∃ value, captured (keys route) m n value ∧
                     decodeURIComponent value = Ok v)
       ∨ (∃ n value err,
            captured (keys route) m n value ∧
            decodeURIComponent value = Throw err ∧
            match_ routes method path = Throw err)).
Proof.
  unfold match_.
  destruct (first_taker routes (toUpperCase method) path)
    as [Hall|(pre & key & route & post & m & -> & Hpre & Hk & He)].
  - left. split; [by apply match_from_none|done].
  - right. exists pre, key, route, post, m. split_and!; try done.
    + intros n value (i & k & Hi & _ & Hv) Hbad.
      rewrite match_from_skip by done. rewrite (match_from_hit _ _ _ _ _ m) by done.
      unfold matched, extractParams.
      destruct (extractParams_from 0 (keys route) m ∅) as [params|err] eqn:Hx; simpl.
      * destruct (extractParams_from_decodes _ _ _ _ _ Hx i k value Hi Hv) as [v Hd].
        by rewrite Hd in Hbad.
      * destruct (extractParams_from_throw _ _ _ _ _ Hx)
          as (i' & k' & value' & _ & _ & Hd).
        by rewrite (decodeURIComponent_throws _ _ Hd).
    + rewrite match_from_skip by done. rewrite (match_from_hit _ _ _ _ _ m) by done.
      unfold matched, extractParams.
      destruct (extractParams_from 0 (keys route) m ∅) as [params|err] eqn:Hx; simpl.
      * left. exists params. split_and!; [done| |].
        -- intros n value (i & k & Hi & _ & Hv).
           by apply (extractParams_from_decodes _ _ _ _ _ Hx i k value Hi Hv).
        -- intros n v Hn.
           destruct (extractParams_from_ok _ _ _ _ _ Hx n v Hn)
             as [Hacc|(i & k & value & Hi & Hname & Hv & Hd)].
           ++ by rewrite lookup_empty in Hacc.
           ++ exists value. split; [|done]. by exists i, k.
      * right. destruct (extractParams_from_throw _ _ _ _ _ Hx)
          as (i & k & value & Hi & Hv & Hd).
        exists (name k), value, err. repeat split; try done. by exists i, k.
Qed.

(** C8. Registering again under a key that already sits at slot [i]
    overwrites that slot and nothing else: the registry keeps its length and
    its order of keys, [getRoutes] lists the entry at the same position with
    the new options, and the entry at slot [i] carries the new handler. *)
Theorem register_existing_in_place (routes : Routes) (i : nat)
    (method : HttpMethod) (path : string) (old : RouteEntry)
    (h : MockHandler) (o : MockOptions) (re : RegExp) (ks : list Key) :
  NoDup routes.*1 →
  routes !! i = Some (routeKey method path, old) →
  pathToRegexp path = Ok (re, ks) →
  let entry := {| pattern := re; keys := ks; handler := h; options := o;
                  originalPath := path |} in
  ∃ routes',
    register method path h o routes = Ok routes' ∧
    routes' = <[i := (routeKey method path, entry)]> routes ∧
    routes'.*1 = routes.*1 ∧
    routes' !! i = Some (routeKey method path, entry) ∧
    (∀ j, j ≠ i → routes' !! j = routes !! j) ∧
    getRoutes routes' =
      <[i := {| ri_method := routeMethod (routeKey method path);
                ri_path := path; ri_options := o |}]> (getRoutes routes) ∧
    (∀ meth p m,
       Forall (λ kr, ¬ takes (toUpperCase meth) p kr) (take i routes) →
       routeMethod (routeKey method path) = toUpperCase meth →
       exec re p = Some m →
       match_ routes' meth p =
         bind (extractParams ks m) (λ params,
           Ok (Some {| mr_handler := h; mr_params := params; mr_options := o |}))).
Proof.
  intros Hnd Hi Hc entry.
  exists (<[i := (routeKey method path, entry)]> routes).
  assert (Hlt : i < length routes) by by eapply lookup_lt_Some.
  split_and!.
  - unfold register. rewrite Hc. simpl. f_equal. by eapply map_set_at.
  - done.
  - rewrite list_fmap_insert. simpl. apply list_insert_id.
    by rewrite list_lookup_fmap, Hi.
  - by apply list_lookup_insert_eq.
  - intros j Hj. by apply list_lookup_insert_ne.
  - unfold getRoutes. by rewrite list_fmap_insert.
  - intros meth p m Hpre Hk He. unfold match_.
    rewrite insert_take_drop by done.
    rewrite match_from_skip by done.
    by rewrite (match_from_hit _ _ _ _ _ m).
Qed.

End WithLibrary.

Arguments RouteEntry : clear implicits.
Arguments MatchResult : clear implicits.

(** [this.routes] for handlers of type [H]. *)
Abbreviation Routes H := (list (string * RouteEntry H)).

(** *** Patterns made of literal and [:name] segments

    A compiler for the patterns the examples register, following what
    path-to-regexp 6 builds for them with its default options: each token is
    a ["/"] followed by a literal compared without regard to ASCII case or
    by a capture of one or more characters other than ["/"], ["#"], ["?"];
    one trailing delimiter among these three is optional.  Any other pattern
    is refused here. *)

Inductive Token : Type :=
| Lit (s : string)
| Param (n : string).

Fixpoint split_on (sep : ascii) (s : string) : list string :=
  match s with
  | EmptyString => [EmptyString]
  | String c rest =>
      if decide (c = sep) then EmptyString :: split_on sep rest
      else match split_on sep rest with
           | p :: ps => String c p :: ps
           | [] => [String c EmptyString]
           end
  end.

Fixpoint all_chars (p : ascii → bool) (s : string) : bool :=
  match s with
  | EmptyString => true
  | String c rest => p c && all_chars p rest
  end.

Definition word_char (c : ascii) : bool :=
  let n := N_of_ascii c in
  between 48 57 n || between 65 90 n || between 97 122 n || (n =? 95)%N.

Definition literal_char (c : ascii) : bool :=
  word_char c || (N_of_ascii c =? 45)%N || (N_of_ascii c =? 126)%N.

Definition delimiter (c : ascii) : bool :=
  let n := N_of_ascii c in (n =? 47)%N || (n =? 35)%N || (n =? 63)%N.

Definition token_of (seg : string) : Result Token :=
  match seg with
  | EmptyString => Throw (TypeError "pattern outside the supported subset")
  | String c rest =>
      if decide (c = ":"%char) then
        match rest with
        | EmptyString => Throw (TypeError "Missing parameter name")
        | _ => if all_chars word_char rest then Ok (Param rest)
               else Throw (TypeError "pattern outside the supported subset")
        end
      else if all_chars literal_char seg then Ok (Lit seg)
      else Throw (TypeError "pattern outside the supported subset")
  end.

Fixpoint tokens_of (segs : list string) : Result (list Token) :=
  match segs with
  | [] => Ok []
  | seg :: rest =>
      bind (token_of seg) (λ t, bind (tokens_of rest) (λ ts, Ok (t :: ts)))
  end.

Fixpoint keys_of (ts : list Token) : list Key :=
  match ts with
  | [] => []
  | Lit _ :: rest => keys_of rest
  | Param n :: rest => {| name := n |} :: keys_of rest
  end.

Fixpoint strip_delimiter (s : string) : string :=
  match s with
  | EmptyString => EmptyString
  | String c EmptyString => if delimiter c then EmptyString else s
  | String c rest => String c (strip_delimiter rest)
  end.

Fixpoint match_tokens (ts : list Token) (segs : list string)
    : option (list (option string)) :=
  match ts, segs with
  | [], [] => Some []
  | Lit l :: ts', seg :: segs' =>
      if decide (toUpperCase_ascii seg = toUpperCase_ascii l)
      then match_tokens ts' segs' else None
  | Param _ :: ts', seg :: segs' =>
      match seg with
      | EmptyString => None
      | _ => if all_chars (λ c, negb (delimiter c)) seg
             then cons (Some seg) <$> match_tokens ts' segs' else None
      end
  | _, _ => None
  end.

Definition exec_tokens (ts : list Token) (path : string)
    : option RegExpExecArray :=
  match split_on "/"%char (strip_delimiter path) with
  | EmptyString :: segs => cons (Some path) <$> match_tokens ts segs
  | _ => None
  end.

Definition pathToRegexp_segments (path : string) : Result (RegExp * list Key) :=
  match split_on "/"%char path with
  | EmptyString :: segs =>
      bind (tokens_of segs) (λ ts, Ok ({| exec := exec_tokens ts |}, keys_of ts))
  | _ => Throw (TypeError "pattern outside the supported subset")
  end.

(** Registration through the compiler above, on a registry whose handlers
    are numbered; a registration that throws leaves the registry as it was. *)
Definition reg (method : HttpMethod) (path : string) (h : nat)
    (routes : Routes nat) : Routes nat :=
  match register toUpperCase_ascii pathToRegexp_segments method path h
          no_options routes with
  | Ok routes' => routes'
  | Throw _ => routes
  end.

Definition users_routes : Routes nat :=
  reg GET "/users/123" 3 (reg GET "/users/:id" 2
    (reg GET "/posts" 1 (reg POST "/users/:id" 0 []))).

(** The entry [reg GET "/users/:id" 2] stores. *)
Definition users_id_route : RouteEntry nat :=
  {| pattern := {| exec := exec_tokens [Lit "users"; Param "id"] |};
     keys := [{| name := "id" |}];
     handler := 2; options := no_options; originalPath := "/users/:id" |}.

Example users_routes_keys :
  users_routes.*1 = ["POST:/users/:id"; "GET:/posts"; "GET:/users/:id"; "GET:/users/123"].
Proof. reflexivity. Qed.

Example match_decodes :
  match_ toUpperCase_ascii users_routes "GET" "/users/a%20b/" =
    Ok (Some {| mr_handler := 2; mr_params := {["id" := "a b"]};
                mr_options := no_options |}).
Proof. reflexivity. Qed.

Example match_no_route :
  match_ toUpperCase_ascii users_routes "DELETE" "/users/1" = Ok None.
Proof. reflexivity. Qed.

(** Two GET patterns accept ["/users/123"]; the one registered first
    answers.  Both accept ["/users/%"] as well; the one registered first
    makes [match] throw. *)
Lemma match_first_match_wins_witness :
  match_ toUpperCase_ascii users_routes "get" "/users/123" =
    Ok (Some {| mr_handler := 2; mr_params := {["id" := "123"]};
                mr_options := no_options |}) ∧
  match_ toUpperCase_ascii users_routes "get" "/users/%" =
    Throw (URIError "URI malformed").
Proof.
  split.
  - destruct (match_first_match_wins toUpperCase_ascii
                (take 2 users_routes) (drop 3 users_routes)
                "GET:/users/:id" users_id_route "get" "/users/123"
                [Some "/users/123"; Some "123"]) as [Heq _].
    + repeat constructor.
      * intros [H _]. discriminate H.
      * intros [_ [x H]]. discriminate H.
    + reflexivity.
    + reflexivity.
    + exact Heq.
  - destruct (match_first_match_wins toUpperCase_ascii
                (take 2 users_routes) (drop 3 users_routes)
                "GET:/users/:id" users_id_route "get" "/users/%"
                [Some "/users/%"; Some "%"]) as (_ & _ & Hthrow).
    + repeat constructor.
      * intros [H _]. discriminate H.
      * intros [_ [x H]]. discriminate H.
    + reflexivity.
    + reflexivity.
    + apply (Hthrow "id" "%"); [|reflexivity].
      exists 0, {| name := "id" |}. by split_and!.
Defined.

(** C1, counterexample. GET ["/users/:id"] and GET ["/users/:name"] both
    accept ["/users/%"]; the capture of the earlier one is a lone ["%"], and
    [match] throws instead of returning the earliest entry's handler,
    parameters and options. *)
Definition overlapping_routes : Routes nat :=
  reg GET "/users/:name" 1 (reg GET "/users/:id" 0 []).

Lemma match_overlap_throws :
  overlapping_routes.*1 = ["GET:/users/:id"; "GET:/users/:name"] ∧
  Forall (λ kr, routeMethod kr.1 = "GET" ∧
                exec (pattern kr.2) "/users/%" = Some [Some "/users/%"; Some "%"])
         overlapping_routes ∧
  match_ toUpperCase_ascii overlapping_routes "GET" "/users/%" =
    Throw (URIError "URI malformed") ∧
  ¬ ∃ r, match_ toUpperCase_ascii overlapping_routes "GET" "/users/%" = Ok (Some r).
Proof.
  split_and!; [reflexivity|by repeat constructor|reflexivity|].
  intros [r H]. discriminate H.
Qed.

(** C6, counterexample. With GET ["/users/:id"] registered, the path
    ["/users/%"] is accepted by the pattern and its capture is a lone
    ["%"]: [match] throws instead of returning a result or the no-match
    signal. *)
Lemma match_throws_on_lone_percent :
  match_ toUpperCase_ascii (reg GET "/users/:id" 0 []) "GET" "/users/%" =
    Throw (URIError "URI malformed")
  ∧ ¬ ∃ r, match_ toUpperCase_ascii (reg GET "/users/:id" 0 []) "GET" "/users/%" = Ok r.
Proof. split; [reflexivity|]. intros [r H]. discriminate H. Qed.

(** Registering GET ["/users/:id"] again, with handler 7 and a delay,
    rewrites slot 2 of the four-entry registry. *)
Lemma register_existing_in_place_witness :
  ∃ routes',
    register toUpperCase_ascii pathToRegexp_segments GET "/users/:id" 7
      {| delay := Some 500%Z; headers := None |} users_routes = Ok routes' ∧
    routes'.*1 = users_routes.*1 ∧
    handler <$> (snd <$> routes' !! 2) = Some 7 ∧
    ri_path <$> getRoutes routes' = ["/users/:id"; "/posts"; "/users/:id"; "/users/123"].
Proof.
  destruct (register_existing_in_place toUpperCase_ascii pathToRegexp_segments
              users_routes 2 GET "/users/:id" users_id_route 7
              {| delay := Some 500%Z; headers := None |}
              {| exec := exec_tokens [Lit "users"; Param "id"] |}
              [{| name := "id" |}])
    as (routes' & Hreg & -> & Hkeys & Hslot & _ & Hget & _).
  - rewrite users_routes_keys. apply (bool_decide_unpack _). vm_compute. exact I.
  - reflexivity.
  - reflexivity.
  - exists (<[2 := (routeKey toUpperCase_ascii GET "/users/:id",
                    {| pattern := {| exec := exec_tokens [Lit "users"; Param "id"] |};
                       keys := [{| name := "id" |}]; handler := 7;
                       options := {| delay := Some 500%Z; headers := None |};
                       originalPath := "/users/:id" |})]> users_routes).
    split_and!; [exact Hreg|exact Hkeys|by rewrite Hslot|by rewrite Hget].
Defined.

End RouteMatcher.

(** ** Middleware pipeline (middleware-pipeline.ts) *)

Module MiddlewarePipeline.

Section Pipeline.
Context {MockRequest Response : Type}.

(** What an [async] middleware does with its continuation, as a tree: it
    resolves, it throws (or rejects), or it awaits [next()] and goes on with
    the response or the error that call settled with.  Every call of the
    continuation is awaited before the middleware goes on. *)
Inductive Prog : Type :=
| Return (r : Response)
| Raise (e : JsError)
| AwaitNext (k : Result Response → Prog).

Local Abbreviation Middleware := (MockRequest → Prog).

(** What the pipeline does, in order. *)
Inductive Step : Type :=
| Invoked (i : nat)
| FinalHandler
| ConsoleError (e : JsError).

(** The closure variable [index] of one [execute] call, and the trace. *)
Record State : Type := { index : nat; trace : list Step }.

Definition record (s : Step) (st : State) : State :=
  {| index := index st; trace := trace st ++ [s] |}.

Definition already_called : JsError := Error "next() has already been called".

(** The body of one middleware, run with its own [safeNext]; [nextCalled]
    is that closure's flag and [next] the enclosing [next]. *)
Fixpoint run (next : State → option (Result Response * State))
    (p : Prog) (nextCalled : bool) (st : State)
    : option (Result Response * State) :=
  match p with
  | Return r => Some (Ok r, st)
  | Raise e => Some (Throw e, st)
  | AwaitNext k =>
      if nextCalled then run next (k (Throw already_called)) true st
      else match next st with
           | Some (o, st') => run next (k o) true st'
           | None => None
           end
  end.

(** [next]; a lookup past the end of [middlewares] is the test
    [index >= this.middlewares.length].  [None] only when the fuel runs out. *)
Fixpoint next (fuel : nat) (middlewares : list Middleware)
    (request : MockRequest) (finalHandler : Result Response) (st : State)
    : option (Result Response * State) :=
  match fuel with
  | 0 => None
  | S fuel' =>
      match middlewares !! index st with
      | None => Some (finalHandler, record FinalHandler st)
      | Some middleware =>
          let st1 := {| index := S (index st);
                        trace := trace st ++ [Invoked (index st)] |} in
          match run (next fuel' middlewares request finalHandler)
                  (middleware request) false st1 with
          | Some (Ok r, st2) => Some (Ok r, st2)
          | Some (Throw error, st2) =>
              next fuel' middlewares request finalHandler
                (record (ConsoleError error) st2)
          | None => None
          end
      end
  end.

Definition execute (middlewares : list Middleware) (request : MockRequest)
    (finalHandler : Result Response) : option (Result Response * State) :=
  next (S (length middlewares)) middlewares request finalHandler
    {| index := 0; trace := [] |}.

Definition use (middleware : Middleware) (middlewares : list Middleware)
    : list Middleware := middlewares ++ [middleware].

Definition getMiddlewareCount (middlewares : list Middleware) : nat :=
  length middlewares.

Definition is_final (s : Step) : bool :=
  match s with FinalHandler => true | _ => false end.

Definition is_invoked (i : nat) (s : Step) : bool :=
  match s with Invoked j => bool_decide (i = j) | _ => false end.

(** How often the terminal operation, and the middleware at slot [i], ran. *)
Definition final_runs (st : State) : nat := length (filter is_final (trace st)).
Definition runs_of (i : nat) (st : State) : nat :=
  length (filter (is_invoked i) (trace st)).

(** *** Sample middleware *)

(** [async (req, next) => next()]. *)
Definition pass_through : Middleware :=
  λ _, AwaitNext (λ o, match o with Ok r => Return r | Throw e => Raise e end).

(** [async (req, next) => { await next(); return next(); }]: the second
    call is not guarded by the middleware. *)
Definition calls_next_twice : Middleware :=
  λ _, AwaitNext (λ o1,
         match o1 with
         | Ok _ =>
             AwaitNext (λ o2, match o2 with Ok r => Return r | Throw e => Raise e end)
         | Throw e => Raise e
         end).

(** The middleware of the test suite: the second call sits in a
    [try]/[catch] and the first response is returned. *)
Definition calls_next_twice_guarded : Middleware :=
  λ _, AwaitNext (λ o1,
         match o1 with
         | Ok response1 => AwaitNext (λ _, Return response1)
         | Throw e => Raise e
         end).

(** *** The pipeline settles, and resolves when the terminal operation does *)

Lemma run_settles (nx : State → option (Result Response * State)) (i0 : nat) :
  (∀ st, i0 ≤ index st → ∃ o st', nx st = Some (o, st') ∧ index st ≤ index st') →
  ∀ p called st, i0 ≤ index st →
    ∃ o st', run nx p called st = Some (o, st') ∧ index st ≤ index st'.
Proof.
  intros Hnx p. induction p as [r|e|k IH]; intros called st Hst; simpl.
  - by exists (Ok r), st.
  - by exists (Throw e), st.
  - destruct called.
    + by apply IH.
    + destruct (Hnx st Hst) as (o & st' & -> & Hle).
      destruct (IH o true st') as (o' & st'' & -> & Hle'); [lia|].
      exists o', st''. split; [done|lia].
Qed.

Lemma next_unfold (fuel : nat) (middlewares : list Middleware)
    (request : MockRequest) (finalHandler : Result Response) (st : State) :
  next (S fuel) middlewares request finalHandler st =
    match middlewares !! index st with
    | None => Some (finalHandler, record FinalHandler st)
    | Some middleware =>
        match run (next fuel middlewares request finalHandler) (middleware request)
                false {| index := S (index st);
                         trace := trace st ++ [Invoked (index st)] |} with
        | Some (Ok r, st2) => Some (Ok r, st2)
        | Some (Throw error, st2) =>
            next fuel middlewares request finalHandler
              (record (ConsoleError error) st2)
        | None => None
        end
    end.
Proof. reflexivity. Qed.

Lemma next_settles (middlewares : list Middleware) (request : MockRequest)
    (finalHandler : Result Response) (fuel : nat) (st : State) :
  length middlewares - index st < fuel →
  ∃ o st', next fuel middlewares request finalHandler st = Some (o, st') ∧
           index st ≤ index st' ∧ (is_ok finalHandler → is_ok o).
Proof.
  revert st. induction fuel as [|fuel IH]; intros st Hfuel; [lia|].
  rewrite next_unfold.
  destruct (middlewares !! index st) as [mw|] eqn:Hmw.
  - apply lookup_lt_Some in Hmw.
    set (st1 := {| index := S (index st); trace := trace st ++ [Invoked (index st)] |}).
    assert (Hnx : ∀ s, S (index st) ≤ index s →
              ∃ o s', next fuel middlewares request finalHandler s = Some (o, s') ∧
                      index s ≤ index s').
    { intros s Hs. destruct (IH s) as (o & s' & ? & ? & ?); [lia|]. by exists o, s'. }
    destruct (run_settles _ _ Hnx (mw request) false st1) as (o & st2 & -> & Hle);
      [done|].
    simpl in Hle. destruct o as [r|e].
    + exists (Ok r), st2. split_and!; [done|lia|done].
    + destruct (IH (record (ConsoleError e) st2)) as (o & st3 & -> & Hle3 & Hok);
        [simpl; lia|].
      exists o, st3. simpl in Hle3. split_and!; [done|lia|done].
  - exists finalHandler, (record FinalHandler st). by split_and!.
Qed.

Lemma execute_settles (middlewares : list Middleware) (request : MockRequest)
    (finalHandler : Result Response) :
  ∃ o st, execute middlewares request finalHandler = Some (o, st) ∧
          (is_ok finalHandler → is_ok o).
Proof.
  destruct (next_settles middlewares request finalHandler (S (length middlewares))
              {| index := 0; trace := [] |}) as (o & st & H & _ & Hok);
    [simpl; lia|].
  by exists o, st.
Qed.

(** C3, at the failing input. A middleware that awaits [next()] twice
    without guarding the second call: the second call throws, the error
    leaves the middleware, [execute] logs it and calls [next()] once more,
    and the terminal operation runs a second time. *)
Theorem unguarded_second_next_reruns_final (request : MockRequest)
    (response : Response) :
  ∃ st,
    execute [calls_next_twice] request (Ok response) = Some (Ok response, st) ∧
    trace st = [Invoked 0; FinalHandler; ConsoleError already_called; FinalHandler] ∧
    final_runs st = 2.
Proof. eexists. split_and!; reflexivity. Qed.

(** With a well-behaved middleware behind it the offender still runs the
    terminal operation twice, the other middleware once. *)
Example unguarded_second_next_in_chain (request : MockRequest) (response : Response) :
  ∃ st,
    execute [calls_next_twice; pass_through] request (Ok response)
      = Some (Ok response, st) ∧
    runs_of 1 st = 1 ∧ final_runs st = 2.
Proof. eexists. split_and!; reflexivity. Qed.

(** When the middleware itself catches the error of the second call, every
    stage runs once. *)
Example guarded_second_next (request : MockRequest) (response : Response) :
  ∃ st,
    execute [calls_next_twice_guarded; pass_through] request (Ok response)
      = Some (Ok response, st) ∧
    trace st = [Invoked 0; Invoked 1; FinalHandler] ∧ final_runs st = 1.
Proof. eexists. split_and!; reflexivity. Qed.

End Pipeline.

Arguments Prog : clear implicits.

(** A middleware over requests [Q] and responses [R]. *)
Abbreviation Middleware Q R := (Q → Prog R).

End MiddlewarePipeline.

(** ** Event emitter (event-emitter.ts) *)

Module EventEmitter.

Inductive EventType : Type := ON_REQUEST | ON_MOCK | ON_NETWORK | ON_RESPONSE.

Global Instance EventType_eq_dec : EqDecision EventType.
Proof. solve_decision. Defined.

Section Emitter.
(** The payload of an emission; handlers are function objects, told apart
    by identity. *)
Context {Args : Type}.
Definition Handler : Type := nat.

(** The wrapper closure [on] builds around a handler: a new function object
    at every call. *)
Record EventListener : Type := { id : nat; wraps : Handler }.

Global Instance EventListener_eq_dec : EqDecision EventListener.
Proof. solve_decision. Defined.

Record Emitter : Type := {
  (** [this.handlerMap]: [Map<EventType, Map<Function, EventListener>>]. *)
  handlerMap : list (EventType * list (Handler * EventListener));
  (** The listener list of the underlying [EventTarget], in the order added. *)
  target : list (EventType * EventListener);
  (** Identity of the next closure. *)
  fresh_id : nat
}.

Definition new : Emitter := {| handlerMap := []; target := []; fresh_id := 0 |}.

(** Two entries of the listener list are the same registration when the
    type and the callback (the same closure) agree. *)
Definition same (event : EventType) (l : EventListener)
    (x : EventType * EventListener) : bool :=
  bool_decide (x.1 = event) && bool_decide (id x.2 = id l).

(** [EventTarget.addEventListener]: a (type, callback) pair already in the
    list is not added again. *)
Definition addEventListener (event : EventType) (l : EventListener)
    (t : list (EventType * EventListener)) : list (EventType * EventListener) :=
  if existsb (same event l) t then t else t ++ [(event, l)].

Definition removeEventListener (event : EventType) (l : EventListener)
    (t : list (EventType * EventListener)) : list (EventType * EventListener) :=
  List.filter (λ x, negb (same event l x)) t.

Definition on (event : EventType) (handler : Handler) (em : Emitter) : Emitter :=
  let hm := if map_has event (handlerMap em) then handlerMap em
            else map_set event [] (handlerMap em) in
  let eventListener := {| id := fresh_id em; wraps := handler |} in
  let eventHandlers := default [] (map_get event hm) in
  {| handlerMap := map_set event (map_set handler eventListener eventHandlers) hm;
     target := addEventListener event eventListener (target em);
     fresh_id := S (fresh_id em) |}.

Definition off (event : EventType) (handler : Handler) (em : Emitter)
    : bool * Emitter :=
  match map_get event (handlerMap em) with
  | None => (false, em)
  | Some eventHandlers =>
      match map_get handler eventHandlers with
      | None => (false, em)
      | Some eventListener =>
          let eventHandlers' := map_delete handler eventHandlers in
          (true,
           {| handlerMap :=
                match eventHandlers' with
                | [] => map_delete event (handlerMap em)
                | _ => map_set event eventHandlers' (handlerMap em)
                end;
              target := removeEventListener event eventListener (target em);
              fresh_id := fresh_id em |})
      end
  end.

(** [emit]: the handler calls [dispatchEvent] makes, in order.  Each call
    sits in the wrapper's [try]/[catch], so whatever a handler does the
    next one is still called and [emit] returns normally. *)
Definition emit (event : EventType) (args : Args) (em : Emitter)
    : list (Handler * Args) :=
  (λ x, (wraps x.2, args)) <$>
    List.filter (λ x, bool_decide (x.1 = event)) (target em).

Definition listenerCount (event : EventType) (em : Emitter) : nat :=
  match map_get event (handlerMap em) with
  | Some eventHandlers => length eventHandlers
  | None => 0
  end.

Definition calls_of (h : Handler) (calls : list (Handler * Args)) : nat :=
  length (List.filter (λ c, bool_decide (c.1 = h)) calls).

(** Evaluation with a handler whose identity is a variable. *)
Ltac eval_emitter :=
  unfold on, off, emit, listenerCount, calls_of, addEventListener,
    removeEventListener, same, new;
  repeat (simpl; try rewrite !decide_True by done;
          try rewrite !bool_decide_eq_true_2 by done).

(** A single registration: one call per emission, none after [off]. *)
Example on_once (h : Handler) (args : Args) :
  emit ON_REQUEST args (on ON_REQUEST h new) = [(h, args)] ∧
  (off ON_REQUEST h (on ON_REQUEST h new)).1 = true ∧
  emit ON_REQUEST args (off ON_REQUEST h (on ON_REQUEST h new)).2 = [].
Proof. by eval_emitter. Qed.

(** C4, at the failing input. After [on(event, h)] twice on a new emitter:
    the map holds one entry for [h], yet the event target holds two
    wrappers; an emission calls [h] twice; [off] answers [true] and removes
    the second wrapper only, so later emissions still call [h] once, and a
    further [off] answers [false]. *)
Theorem on_twice_calls_twice (event : EventType) (h : Handler) (args : Args) :
  let em := on event h (on event h new) in
  listenerCount event em = 1 ∧
  emit event args em = [(h, args); (h, args)] ∧
  calls_of h (emit event args em) = 2 ∧
  (off event h em).1 = true ∧
  emit event args (off event h em).2 = [(h, args)] ∧
  (off event h (off event h em).2).1 = false.
Proof. destruct event; by eval_emitter. Qed.

End Emitter.

End EventEmitter.

(** ** State stores (state-store.ts) *)

Module StateStore.

(** Objects live in a heap; a value is a primitive or a reference to an
    object, told apart by what [typeof] answers for it: ["object"] for
    [VRef], ["function"] for [VFun].  [VNum z] is the number with the
    integer value [z]. *)
Abbreviation loc := nat.

Inductive Value : Type :=
| VUndefined
| VNull
| VBool (b : bool)
| VNum (z : Z)
| VStr (s : string)
| VRef (l : loc)
| VFun (l : loc).

(** [typeof v === "function"]. *)
Definition is_function (v : Value) : bool :=
  match v with VFun _ => true | _ => false end.

(** An object: its prototype ([null] or an object) and its own data
    properties (array elements under their index), writable and enumerable
    as an object literal creates them. *)
Record Object : Type := {
  proto : Value;
  props : gmap string Value
}.

Abbreviation Heap := (gmap loc Object).

(** Where [Object.prototype] lives: the prototype of every object an object
    literal creates, and the owner of the accessor [__proto__]. *)
Definition object_prototype : loc := 0.

Record StateStore : Type := { data : Value }.

(** What [get()] hands out: the value itself when [typeof] does not answer
    ["object"] for it or when it is [null], otherwise a proxy bound to its
    target. *)
Inductive View : Type :=
| Direct (v : Value)
| Proxy (target : loc).

Definition createProxy (target : loc) : View := Proxy target.

Definition createReadonlyProxy (obj : Value) : View :=
  match obj with
  | VRef l => createProxy l
  | v => Direct v
  end.

Definition get (s : StateStore) : View := createReadonlyProxy (data s).

Definition readonly_error : JsError :=
  Error "Cannot modify readonly state. Use set() method to update state.".

(** Where the lookup of a property along the prototype chain ends. *)
Inductive Found : Type :=
| Own (v : Value)
| ProtoAccessor
| Missing.

(** The walk from an object up its prototype chain; chains are acyclic, so
    a chain longer than the fuel is not one of a JavaScript heap. *)
Fixpoint find_property (fuel : nat) (h : Heap) (l : loc) (prop : string)
    : option Found :=
  match fuel with
  | 0 => None
  | S fuel' =>
      obj ← h !! l;
      match props obj !! prop with
      | Some v => Some (Own v)
      | None =>
          if decide (l = object_prototype ∧ prop = "__proto__")
          then Some ProtoAccessor
          else match proto obj with
               | VRef p | VFun p => find_property fuel' h p prop
               | _ => Some Missing
               end
      end
  end.

(** [target[prop]]: the first data property on the chain, the prototype of
    [target] for the inherited accessor [__proto__], [undefined] when the
    chain has no such property.  [None]: an object of the chain is not in
    the heap. *)
Definition get_property (h : Heap) (target : loc) (prop : string)
    : option Value :=
  found ← find_property (S (size h)) h target prop;
  match found with
  | Own v => Some v
  | ProtoAccessor => proto <$> h !! target
  | Missing => Some VUndefined
  end.

(** The traps of the proxy.  [get] reads the target as it is in the heap at
    the time of the read and wraps again a value for which [typeof] answers
    ["object"]; any other value, a function among them, is returned as it
    is. *)
Definition proxy_get (h : Heap) (target : loc) (prop : string) : option View :=
  value ← get_property h target prop;
  Some (match value with
        | VRef l => createProxy l
        | v => Direct v
        end).

Definition proxy_set (h : Heap) (target : loc) (prop : string) (v : Value)
    : Result Heap := Throw readonly_error.

Definition proxy_deleteProperty (h : Heap) (target : loc) (prop : string)
    : Result Heap := Throw readonly_error.

(** Reading [view.p1.p2...] for as long as the reads go through proxies. *)
Fixpoint read (h : Heap) (view : View) (props : list string) : option View :=
  match props with
  | [] => Some view
  | prop :: rest =>
      match view with
      | Proxy target => v ← proxy_get h target prop; read h v rest
      | Direct _ => None
      end
  end.

(** The argument of [set]: a value that is not a function, stored as it is,
    or a function, called as an updater of the current value; an updater
    may allocate, mutate or throw. *)
Inductive SetArg : Type :=
| Replace (v : Value) (not_function : is_function v = false)
| Update (updater : Value → Heap → Result (Value * Heap)).

Definition set (dataOrUpdater : SetArg) (s : StateStore) (h : Heap)
    : Result (StateStore * Heap) :=
  match dataOrUpdater with
  | Update updater =>
      bind (updater (data s) h) (λ '(v, h'), Ok ({| data := v |}, h'))
  | Replace v _ => Ok ({| data := v |}, h)
  end.

(** *** The manager *)

Record Manager : Type := {
  (** [this.stores]: [Map<string, StateStore>], stores by reference. *)
  stores : list (string * loc);
  (** The store objects. *)
  store_heap : gmap loc StateStore;
  (** The objects the stores' values refer to. *)
  objects : Heap;
  (** What [console.warn] received. *)
  warnings : list string
}.

Definition new : Manager :=
  {| stores := []; store_heap := ∅; objects := ∅; warnings := [] |}.

Definition hasStore (key : string) (m : Manager) : bool := map_has key (stores m).

Definition getStore (key : string) (m : Manager) : option loc :=
  map_get key (stores m).

Definition warning (key : string) : string :=
  "Store with the key " +:+ key +:+ " already exists. Ignoring initialData.".

(** [createStore]; the answer is [undefined] ([None]) only if the map holds
    no store under a key it has. *)
Definition createStore (key : string) (initialData : Value) (m : Manager)
    : option loc * Manager :=
  if hasStore key m then
    (map_get key (stores m),
     {| stores := stores m; store_heap := store_heap m; objects := objects m;
        warnings := warnings m ++ [warning key] |})
  else
    let store := fresh (dom (store_heap m)) in
    (Some store,
     {| stores := map_set key store (stores m);
        store_heap := <[store := {| data := initialData |}]> (store_heap m);
        objects := objects m;
        warnings := warnings m |}).

Definition deleteStore (key : string) (m : Manager) : bool * Manager :=
  (map_has key (stores m),
   {| stores := map_delete key (stores m); store_heap := store_heap m;
      objects := objects m; warnings := warnings m |}).

Definition getStoreKeys (m : Manager) : list string := (stores m).*1.

(** The value held by the store the manager answered with. *)
Definition held (c : option loc) (m : Manager) : option Value :=
  l ← c; data <$> store_heap m !! l.

(** *** A sample heap and sample updaters *)

(** [Object.prototype] with its function members. *)
Definition Object_prototype : Object :=
  {| proto := VNull;
     props := list_to_map
       [("constructor", VFun 1); ("hasOwnProperty", VFun 2);
        ("isPrototypeOf", VFun 3); ("propertyIsEnumerable", VFun 4);
        ("toLocaleString", VFun 5); ("toString", VFun 6); ("valueOf", VFun 7);
        ("__defineGetter__", VFun 8); ("__defineSetter__", VFun 9);
        ("__lookupGetter__", VFun 10); ("__lookupSetter__", VFun 11)] |}.

(** [{ count: 0 }], at location 20. *)
Definition counter_heap : Heap :=
  <[20 := {| proto := VRef object_prototype; props := {[ "count" := VNum 0 ]} |}]>
    {[ object_prototype := Object_prototype ]}.

Definition counter_store : StateStore := {| data := VRef 20 |}.

(** [() => ({ count: 1 })]: a new object, the current one left alone. *)
Definition new_counter : Value → Heap → Result (Value * Heap) :=
  λ _ h,
    let l := fresh (dom h) in
    Ok (VRef l,
        <[l := {| proto := VRef object_prototype;
                  props := {[ "count" := VNum 1 ]} |}]> h).

(** [current => { current.count = 1; return current; }] in strict mode: the
    same object, changed in place. *)
Definition count_in_place : Value → Heap → Result (Value * Heap) :=
  λ current h,
    match current with
    | VRef l | VFun l =>
        match h !! l with
        | Some obj =>
            Ok (current,
                <[l := {| proto := proto obj;
                          props := <["count" := VNum 1]> (props obj) |}]> h)
        | None => Throw (TypeError "not an object of the heap")
        end
    | VUndefined | VNull => Throw (TypeError "Cannot set properties of undefined")
    | _ => Throw (TypeError "Cannot create property 'count'")
    end.

(** An argument of [set] that leaves every object of the heap as it is: a
    replacement always does; an updater does when it only allocates. *)
Definition keeps_objects (arg : SetArg) (s : StateStore) (h : Heap) : Prop :=
  match arg with
  | Replace _ _ => True
  | Update updater => ∀ v h', updater (data s) h = Ok (v, h') → h ⊆ h'
  end.

(** *** Facts *)

Lemma map_get_set_eq {V : Type} (k : string) (v : V) (m : list (string * V)) :
  map_get k (map_set k v m) = Some v.
Proof.
  induction m as [|[k' v'] m IH]; simpl.
  - by rewrite decide_True.
  - destruct (decide (k = k')) as [->|Hne]; simpl.
    + by rewrite decide_True.
    + by rewrite decide_False.
Qed.

Lemma createStore_present (key : string) (v : Value) (m : Manager) :
  hasStore key (createStore key v m).2 = true ∧
  (hasStore key m = false →
   held (createStore key v m).1 (createStore key v m).2 = Some v) ∧
  (hasStore key m = true →
   (createStore key v m).1 = getStore key m ∧
   store_heap (createStore key v m).2 = store_heap m).
Proof.
  unfold createStore. destruct (hasStore key m) eqn:Hhas; simpl.
  - split_and!; [done|done|done].
  - split_and!; [|intros _|done].
    + unfold hasStore, map_has. cbn [stores]. by rewrite map_get_set_eq.
    + unfold held. simpl. by rewrite lookup_insert_eq.
Qed.

Lemma find_property_weaken (h h' : Heap) (fuel fuel' : nat) (l : loc)
    (prop : string) (found : Found) :
  h ⊆ h' → fuel ≤ fuel' →
  find_property fuel h l prop = Some found →
  find_property fuel' h' l prop = Some found.
Proof.
  intros Hsub. revert fuel' l.
  induction fuel as [|fuel IH]; intros fuel' l Hle Hfind; [done|].
  destruct fuel' as [|fuel']; [lia|]. simpl in *.
  destruct (h !! l) as [obj|] eqn:Hobj; simpl in Hfind; [|done].
  rewrite (lookup_weaken _ _ _ _ Hobj Hsub). simpl.
  destruct (props obj !! prop); [done|].
  destruct (decide (l = object_prototype ∧ prop = "__proto__")); [done|].
  destruct (proto obj); try done; apply IH; try done; lia.
Qed.

Lemma find_property_in_heap (h : Heap) (fuel : nat) (l : loc) (prop : string)
    (found : Found) :
  find_property fuel h l prop = Some found → is_Some (h !! l).
Proof.
  destruct fuel as [|fuel]; [done|]. simpl.
  destruct (h !! l); [by eexists|done].
Qed.

Lemma get_property_weaken (h h' : Heap) (target : loc) (prop : string)
    (v : Value) :
  h ⊆ h' → get_property h target prop = Some v →
  get_property h' target prop = Some v.
Proof.
  intros Hsub. unfold get_property.
  destruct (find_property (S (size h)) h target prop) as [found|] eqn:Hfind;
    [|done].
  rewrite (find_property_weaken h h' (S (size h)) (S (size h')) _ _ found);
    [|done| |done].
  - cbn [mbind option_bind]. destruct found; try done.
    destruct (find_property_in_heap _ _ _ _ _ Hfind) as [obj Hobj].
    rewrite Hobj. by rewrite (lookup_weaken _ _ _ _ Hobj Hsub).
  - apply le_n_S. by apply map_subseteq_size.
Qed.

Lemma proxy_get_weaken (h h' : Heap) (target : loc) (prop : string) (v : View) :
  h ⊆ h' → proxy_get h target prop = Some v → proxy_get h' target prop = Some v.
Proof.
  intros Hsub. unfold proxy_get.
  destruct (get_property h target prop) as [value|] eqn:Hget; simpl; [|done].
  by rewrite (get_property_weaken _ _ _ _ _ Hsub Hget).
Qed.

Lemma read_weaken (h h' : Heap) (props : list string) (view r : View) :
  h ⊆ h' → read h view props = Some r → read h' view props = Some r.
Proof.
  intros Hsub. revert view. induction props as [|prop rest IH]; intros view; [done|].
  simpl. destruct view as [v|target]; [done|].
  destruct (proxy_get h target prop) as [w|] eqn:Hget; simpl; [|done].
  rewrite (proxy_get_weaken _ _ _ _ _ Hsub Hget). simpl. apply IH.
Qed.

(** C7. [createStore(key, v1)] then [createStore(key, v2)]: the second call
    answers with the store of the first, changes no store and no object,
    and warns; the store holds [v1] when the first call created it (and
    the value it already held when the key was taken before). *)
Theorem createStore_first_writer_wins (key : string) (v1 v2 : Value)
    (m m1 m2 : Manager) (c1 c2 : option loc) :
  createStore key v1 m = (c1, m1) →
  createStore key v2 m1 = (c2, m2) →
  c2 = c1 ∧ is_Some c1 ∧
  stores m2 = stores m1 ∧ store_heap m2 = store_heap m1 ∧
  objects m2 = objects m1 ∧
  warnings m2 = warnings m1 ++ [warning key] ∧
  held c2 m2 = held c1 m1 ∧
  (hasStore key m = false → held c2 m2 = Some v1) ∧
  (hasStore key m = true → held c2 m2 = held (getStore key m) m).
Proof.
  intros H1 H2.
  destruct (createStore_present key v1 m) as (Hhas & Hnew & Hold).
  rewrite H1 in Hhas, Hnew, Hold. simpl in *.
  unfold createStore in H2. rewrite Hhas in H2. injection H2 as <- <-. simpl.
  assert (Hc : map_get key (stores m1) = c1).
  { unfold createStore in H1. destruct (hasStore key m) eqn:Hm.
    - by injection H1 as <- <-.
    - injection H1 as <- <-. simpl. by rewrite map_get_set_eq. }
  rewrite Hc. split_and!; try done.
  - unfold hasStore, map_has in Hhas. rewrite Hc in Hhas.
    destruct c1; [by eexists|done].
  - intros Hm. destruct (Hold Hm) as [-> Hheap]. unfold held. by rewrite Hheap.
Qed.

(** On a new manager the second call returns the store created by the
    first, still holding the first value. *)
Lemma createStore_first_writer_wins_witness :
  let r1 := createStore "users" (VNum 1) new in
  let r2 := createStore "users" (VNum 2) r1.2 in
  r2.1 = r1.1 ∧ held r2.1 r2.2 = Some (VNum 1) ∧
  warnings r2.2 = [warning "users"].
Proof.
  intros r1 r2.
  destruct (createStore_first_writer_wins "users" (VNum 1) (VNum 2)
              new r1.2 r2.2 r1.1 r2.1)
    as (Hc & _ & _ & _ & _ & Hw & _ & Hnew & _).
  - reflexivity.
  - reflexivity.
  - split_and!; [exact Hc|exact (Hnew eq_refl)|exact Hw].
Defined.

(** C9, as the code has it. [set] only swaps the reference the store
    holds.  [set(v2)] always returns, stores [v2] and changes no object;
    [set(updater)] stores what the updater returns, in the heap the updater
    left, and throws what the updater throws.  A view is bound to the object
    the store held when [get()] was called: after a [set(v2)], and after a
    [set(updater)] whose updater leaves every existing object as it was,
    every read through a view taken before yields what it yielded before,
    and a view taken afterwards is bound to the new value. *)
Theorem view_outlives_set (s : StateStore) (h : Heap) :
  (∀ v2 nf, set (Replace v2 nf) s h = Ok ({| data := v2 |}, h)) ∧
  (∀ updater v h', updater (data s) h = Ok (v, h') →
     set (Update updater) s h = Ok ({| data := v |}, h')) ∧
  (∀ updater e, updater (data s) h = Throw e →
     set (Update updater) s h = Throw e) ∧
  (∀ arg s' h', set arg s h = Ok (s', h') →
     get s' = createReadonlyProxy (data s') ∧
     (keeps_objects arg s h →
      ∀ props r, read h (get s) props = Some r →
                 read h' (get s) props = Some r)).
Proof.
  split_and!.
  - done.
  - intros updater v h' Hu. simpl. by rewrite Hu.
  - intros updater e Hu. simpl. by rewrite Hu.
  - intros arg s' h' Hset. split; [done|].
    destruct arg as [v2 nf|updater]; simpl in *.
    + injection Hset as <- <-. done.
    + destruct (updater (data s) h) as [[v h1]|e] eqn:Hu; simpl in Hset; [|done].
      injection Hset as <- <-.
      intros Hkeep props r. apply read_weaken. by eapply Hkeep.
Qed.

(** [{ count: 5 }], at location 21 of the sample heap. *)
Definition two_counters : Heap :=
  <[21 := {| proto := VRef object_prototype; props := {[ "count" := VNum 5 ]} |}]>
    counter_heap.

(** A replacement by [{ count: 5 }] and an updater that builds a new
    object: in both cases the old view still reads 0, and a new view reads
    the new count. *)
Lemma view_outlives_set_witness :
  (set (Replace (VRef 21) eq_refl) counter_store two_counters
     = Ok ({| data := VRef 21 |}, two_counters) ∧
   read two_counters (get counter_store) ["count"] = Some (Direct (VNum 0)) ∧
   read two_counters (get {| data := VRef 21 |}) ["count"] = Some (Direct (VNum 5))) ∧
  (∃ s' h',
     set (Update new_counter) counter_store counter_heap = Ok (s', h') ∧
     read h' (get counter_store) ["count"] = Some (Direct (VNum 0)) ∧
     read h' (get s') ["count"] = Some (Direct (VNum 1))).
Proof.
  split.
  - destruct (view_outlives_set counter_store two_counters)
      as (Hreplace & _ & _ & Hview).
    split_and!; [apply Hreplace| |reflexivity].
    apply (Hview (Replace (VRef 21) eq_refl) {| data := VRef 21 |} two_counters
             (Hreplace (VRef 21) eq_refl));
      [exact I|reflexivity].
  - destruct (view_outlives_set counter_store counter_heap)
      as (_ & Hupdate & _ & Hview).
    pose (h1 := <[21 := {| proto := VRef object_prototype;
                           props := {[ "count" := VNum 1 ]} |}]> counter_heap).
    assert (Hnew : new_counter (data counter_store) counter_heap
                   = Ok (VRef 21, h1)) by reflexivity.
    exists {| data := VRef 21 |}, h1.
    split_and!; [exact (Hupdate new_counter _ _ Hnew)| |reflexivity].
    apply (Hview (Update new_counter) {| data := VRef 21 |} h1
             (Hupdate new_counter _ _ Hnew)); [|reflexivity].
    intros v h' Hu. rewrite Hnew in Hu. injection Hu as <- <-.
    apply insert_subseteq. reflexivity.
Defined.

(** C9, counterexample. An updater that changes the current object in
    place and returns it: the view taken before [set] read 0 and reads 1
    afterwards. *)
Lemma in_place_updater_shows_through :
  ∃ s' h',
    set (Update count_in_place) counter_store counter_heap = Ok (s', h') ∧
    read counter_heap (get counter_store) ["count"] = Some (Direct (VNum 0)) ∧
    read h' (get counter_store) ["count"] = Some (Direct (VNum 1)).
Proof. eexists _, _. split_and!; reflexivity. Qed.

(** Writing through a view fails, whatever the property. *)
Example view_is_readonly (h : Heap) (target : loc) (prop : string) (v : Value) :
  proxy_set h target prop v = Throw readonly_error.
Proof. reflexivity. Qed.

(** Inherited members are read through the chain: a method comes back as
    the function it is, the prototype itself comes back wrapped. *)
Example view_reads_inherited :
  read counter_heap (get counter_store) ["constructor"] = Some (Direct (VFun 1)) ∧
  read counter_heap (get counter_store) ["__proto__"] = Some (Proxy object_prototype) ∧
  read counter_heap (get counter_store) ["missing"] = Some (Direct VUndefined).
Proof. by split_and!. Qed.

End StateStore.

(** ** Request records (request-parser.ts, types.ts) *)

Module RequestParser.

Section Records.
(** [B]: the decoded body.  [O]: how the object-valued fields are held, by
    value or by reference. *)
Context {B O : Type}.

Record MockRequest : Type := {
  body : B;
  baseUrl : string;
  method : string;
  params : O;
  query : O;
  path : string;
  host : string;
  hostname : string;
  headers : O
}.

(** [{ ...baseRequest, params }]: every field copied, then [params]. *)
Definition createWithParams (baseRequest : MockRequest) (params : O)
    : MockRequest :=
  {| body := body baseRequest;
     baseUrl := baseUrl baseRequest;
     method := method baseRequest;
     params := params;
     query := query baseRequest;
     path := path baseRequest;
     host := host baseRequest;
     hostname := hostname baseRequest;
     headers := headers baseRequest |}.

End Records.

Arguments MockRequest : clear implicits.

(** *** Records and mappings as objects *)

Abbreviation loc := nat.

Section Objects.
Context {B : Type}.

(** Request records whose [params], [query] and [headers] are references,
    and the mappings those references lead to. *)
Record Heap : Type := {
  requests : gmap loc (MockRequest B loc);
  mappings : gmap loc (gmap string string)
}.

(** Evaluating the object literal of [createWithParams] allocates the new
    record; [None] when [baseRequest] is not a record of the heap. *)
Definition createWithParams_in (h : Heap) (baseRequest params : loc)
    : option (loc * Heap) :=
  r ← requests h !! baseRequest;
  let l := fresh (dom (requests h)) in
  Some (l, {| requests := <[l := createWithParams r params]> (requests h);
              mappings := mappings h |}).

(** C10. [createWithParams] returns a record that was not in the heap
    before; its [params] is the given mapping and every other field is the
    field of the base record, references included, so [headers] and [query]
    are shared; the base record and every mapping are left as they were. *)
Theorem createWithParams_frame (h : Heap) (baseRequest params : loc)
    (r : MockRequest B loc) :
  requests h !! baseRequest = Some r →
  ∃ l h' r',
    createWithParams_in h baseRequest params = Some (l, h') ∧
    requests h !! l = None ∧ l ≠ baseRequest ∧
    requests h' !! l = Some r' ∧
    RequestParser.params r' = params ∧
    body r' = body r ∧ baseUrl r' = baseUrl r ∧ method r' = method r ∧
    query r' = query r ∧ path r' = path r ∧ host r' = host r ∧
    hostname r' = hostname r ∧ headers r' = headers r ∧
    requests h' !! baseRequest = Some r ∧
    (∀ l0, l0 ≠ l → requests h' !! l0 = requests h !! l0) ∧
    mappings h' = mappings h.
Proof.
  intros Hbase.
  set (l := fresh (dom (requests h))).
  assert (Hfresh : requests h !! l = None).
  { apply not_elem_of_dom. apply is_fresh. }
  assert (Hne : l ≠ baseRequest) by (intros ->; congruence).
  exists l, {| requests := <[l := createWithParams r params]> (requests h);
               mappings := mappings h |}, (createWithParams r params).
  split_and!; try done.
  - unfold createWithParams_in. by rewrite Hbase.
  - simpl. by rewrite lookup_insert_eq.
  - simpl. by rewrite lookup_insert_ne.
  - intros l0 Hl0. simpl. by rewrite lookup_insert_ne.
Qed.

End Objects.

Arguments Heap : clear implicits.

(** The record [parse] builds for [GET /users/42]: empty [params] at 1,
    [query] at 2, [headers] at 3; the matcher's parameters sit at 4. *)
Definition parsed_heap : Heap (option string) :=
  {| requests :=
       {[ 0 := {| body := None; baseUrl := "http://localhost";
                  method := "GET"; params := 1; query := 2;
                  path := "/users/42"; host := "localhost";
                  hostname := "localhost"; headers := 3 |} ]};
     mappings := {[ 1 := ∅; 2 := ∅; 3 := ∅; 4 := {[ "id" := "42" ]} ]} |}.

Lemma createWithParams_frame_witness :
  ∃ l h' r',
    createWithParams_in parsed_heap 0 4 = Some (l, h') ∧ l ≠ 0 ∧
    requests h' !! l = Some r' ∧ params r' = 4 ∧
    headers r' = 3 ∧ query r' = 2 ∧
    params <$> requests h' !! 0 = Some 1 ∧
    mappings h' !! 1 = Some ∅.
Proof.
  destruct (createWithParams_frame parsed_heap 0 4
              {| body := None; baseUrl := "http://localhost";
                 method := "GET"; params := 1; query := 2;
                 path := "/users/42"; host := "localhost";
                 hostname := "localhost"; headers := 3 |})
    as (l & h' & r' & Hc & _ & Hne & Hl & Hp & _ & _ & _ & Hq & _ & _ & _ & Hh
        & Hbase & _ & Hm).
  - reflexivity.
  - exists l, h', r'.
    split_and!; [exact Hc|exact Hne|exact Hl|exact Hp|exact Hh|exact Hq| |].
    + by rewrite Hbase.
    + by rewrite Hm.
Defined.

End RequestParser.

(** ** Fetch wrapper (fetch-wrapper.ts) *)

Module FetchWrapper.

Import RouteMatcher MiddlewarePipeline EventEmitter RequestParser.

Inductive ResponseBody : Type :=
| Text (s : string)
| Json (fields : list (string * string)).

Record Response : Type := {
  status : nat;
  response_headers : list (string * string);
  response_body : ResponseBody
}.

(** [handlerError instanceof Error ? handlerError.message : 'Unknown error']. *)
Definition message_of (handlerError : JsError) : string :=
  match handlerError with
  | URIError msg | TypeError msg | Error msg => msg
  | Thrown _ => "Unknown error"
  end.

Definition handler_error_response (handlerError : JsError) : Response :=
  {| status := 500;
     response_headers := [("Content-Type", "application/json")];
     response_body := Json [("error", "Handler error");
                            ("message", message_of handlerError)] |}.

Section Wrapper.
(** The arguments of a call, [(input, init)], and the decoded body. *)
Context {RawCall Body : Type}.

(** Request records with their mappings held by value. *)
Local Abbreviation Request := (MockRequest Body (gmap string string)).
(** A mock handler: the response it resolves with, or what it throws. *)
Local Abbreviation Handler := (Request → Result Response).

Variable toUpperCase : string → string.
(** [RequestParser.parse], awaited. *)
Variable parse : RawCall → Result Request.
(** [this.originalFetch], awaited. *)
Variable originalFetch : RawCall → Result Response.
Variable routes : Routes Handler.
Variable middlewares : list (Middleware Request Response).

(** One call of [this.eventEmitter.emit]; the request is [None] where the
    code passes an unassigned [mockRequest]. *)
Record Emitted : Type := {
  event : EventType;
  request : option Request;
  response : option Response
}.

(** The outcome of a call for its caller, and the emissions in order. *)
Definition Settled : Type := Result Response * list Emitted.

Definition after (evs : list Emitted) (s : Settled) : Settled := (s.1, evs ++ s.2).

Definition forwardToOriginalFetch (mockRequest : option Request)
    (originalInput : RawCall) : Settled :=
  let network := {| event := ON_NETWORK; request := mockRequest; response := None |} in
  match originalFetch originalInput with
  | Ok response =>
      (Ok response,
       [network; {| event := ON_RESPONSE; request := mockRequest;
                    response := Some response |}])
  | Throw error => (Throw error, [network])
  end.

(** The terminal operation handed to the pipeline: the handler's response,
    or the 500 response built in its [catch]; the delay only postpones it. *)
Definition finalHandler (matchResult : MatchResult Handler)
    (requestWithParams : Request) : Result Response :=
  match mr_handler matchResult requestWithParams with
  | Ok response => Ok response
  | Throw handlerError => Ok (handler_error_response handlerError)
  end.

(** [wrappedFetch]; [None] only if the pipeline ran out of fuel. *)
Definition wrappedFetch (input : RawCall) : option Settled :=
  match parse input with
  | Throw _ => Some (forwardToOriginalFetch None input)
  | Ok mockRequest =>
      let on_request :=
        [{| event := ON_REQUEST; request := Some mockRequest; response := None |}] in
      match match_ toUpperCase routes (method mockRequest) (path mockRequest) with
      | Throw _ =>
          Some (after on_request (forwardToOriginalFetch (Some mockRequest) input))
      | Ok None =>
          Some (after on_request (forwardToOriginalFetch (Some mockRequest) input))
      | Ok (Some matchResult) =>
          let requestWithParams :=
            createWithParams mockRequest (mr_params matchResult) in
          let on_mock :=
            on_request ++ [{| event := ON_MOCK; request := Some requestWithParams;
                              response := None |}] in
          match execute middlewares requestWithParams
                  (finalHandler matchResult requestWithParams) with
          | Some (Ok response, _) =>
              Some (Ok response,
                    on_mock ++ [{| event := ON_RESPONSE;
                                   request := Some requestWithParams;
                                   response := Some response |}])
          | Some (Throw _, _) =>
              Some (after on_mock (forwardToOriginalFetch (Some mockRequest) input))
          | None => None
          end
      end
  end.

(** How many emissions of one type a call made. *)
Definition count (ev : EventType) (evs : list Emitted) : nat :=
  length (List.filter (λ e, bool_decide (event e = ev)) evs).

(** The request went to the matcher and the matcher returned a result. *)
Definition matched_by (input : RawCall) (matchResult : MatchResult Handler) : Prop :=
  ∃ mockRequest, parse input = Ok mockRequest ∧
    match_ toUpperCase routes (method mockRequest) (path mockRequest)
      = Ok (Some matchResult).

(** The matcher returned the no-match signal. *)
Definition unmatched (input : RawCall) : Prop :=
  ∃ mockRequest, parse input = Ok mockRequest ∧
    match_ toUpperCase routes (method mockRequest) (path mockRequest) = Ok None.

(** Parsing or matching threw: the [catch] of [wrappedFetch] takes over. *)
Definition failed_before_match (input : RawCall) : Prop :=
  (∃ e, parse input = Throw e) ∨
  ∃ mockRequest e, parse input = Ok mockRequest ∧
    match_ toUpperCase routes (method mockRequest) (path mockRequest) = Throw e.

Definition forwarded (input : RawCall) : Prop :=
  unmatched input ∨ failed_before_match input.

(** *** Facts *)

Lemma finalHandler_ok (matchResult : MatchResult Handler) (rq : Request) :
  is_ok (finalHandler matchResult rq).
Proof. unfold finalHandler. by destruct (mr_handler matchResult rq). Qed.

(** A matched request resolves, with the three emissions of the mock path. *)
Lemma wrappedFetch_matched (input : RawCall) (mockRequest : Request)
    (matchResult : MatchResult Handler) :
  parse input = Ok mockRequest →
  match_ toUpperCase routes (method mockRequest) (path mockRequest)
    = Ok (Some matchResult) →
  let requestWithParams := createWithParams mockRequest (mr_params matchResult) in
  ∃ response,
    wrappedFetch input =
      Some (Ok response,
            [{| event := ON_REQUEST; request := Some mockRequest; response := None |};
             {| event := ON_MOCK; request := Some requestWithParams; response := None |};
             {| event := ON_RESPONSE; request := Some requestWithParams;
                response := Some response |}]).
Proof.
  intros Hparse Hmatch rq. unfold wrappedFetch. rewrite Hparse, Hmatch.
  destruct (execute_settles middlewares rq (finalHandler matchResult rq))
    as (o & st & Hexec & Hok).
  fold rq. rewrite Hexec.
  destruct o as [response|e]; [by exists response|].
  by specialize (Hok (finalHandler_ok matchResult rq)).
Qed.

(** A request that is not matched goes to the network after at most the
    request emission. *)
Lemma wrappedFetch_forwarded (input : RawCall) :
  forwarded input →
  ∃ mockRequest pre,
    wrappedFetch input = Some (after pre (forwardToOriginalFetch mockRequest input)) ∧
    count ON_NETWORK pre = 0 ∧ count ON_RESPONSE pre = 0 ∧ count ON_MOCK pre = 0.
Proof.
  unfold wrappedFetch.
  intros [(rq & Hparse & Hmatch)|[(e & Hparse)|(rq & e & Hparse & Hmatch)]].
  - rewrite Hparse, Hmatch. by eexists (Some rq), _.
  - rewrite Hparse. exists None, []. split_and!; try done.
    unfold after. simpl. by destruct (forwardToOriginalFetch None input).
  - rewrite Hparse, Hmatch. by eexists (Some rq), _.
Qed.

Lemma count_app (ev : EventType) (evs evs' : list Emitted) :
  count ev (evs ++ evs') = count ev evs + count ev evs'.
Proof. unfold count. by rewrite List.filter_app, length_app. Qed.

(** A rejection can only come out of the forwarding path. *)
Lemma wrappedFetch_rejects (input : RawCall) (error : JsError) (evs : list Emitted) :
  wrappedFetch input = Some (Throw error, evs) →
  forwarded input ∧ originalFetch input = Throw error.
Proof.
  unfold wrappedFetch.
  assert (Hfwd : ∀ mo pre,
            Some (after pre (forwardToOriginalFetch mo input)) = Some (Throw error, evs) →
            originalFetch input = Throw error).
  { intros mo pre. unfold after, forwardToOriginalFetch.
    destruct (originalFetch input); simpl; congruence. }
  destruct (parse input) as [rq|e] eqn:Hparse.
  - destruct (match_ toUpperCase routes (method rq) (path rq)) as [[mr|]|e] eqn:Hmatch.
    + destruct (wrappedFetch_matched input rq mr Hparse Hmatch) as (response & Hw).
      unfold wrappedFetch in Hw. rewrite Hparse, Hmatch in Hw. rewrite Hw. done.
    + intros H. split; [|by eapply Hfwd]. left. by exists rq.
    + intros H. split; [|by eapply Hfwd]. right. right. by exists rq, e.
  - intros H. split; [right; left; by exists e|].
    apply (Hfwd None []). rewrite <- H. unfold after. simpl.
    by destruct (forwardToOriginalFetch None input).
Qed.

(** C2, as the code has it. Every call is forwarded or matched: forwarded
    when the matcher returned the no-match signal or when parsing or
    matching threw, matched when the matcher returned a result.  A forwarded
    call whose network function answers emits exactly one ON_NETWORK and one
    ON_RESPONSE and no ON_MOCK; a matched call always completes with a
    response and emits exactly one ON_MOCK and one ON_RESPONSE and no
    ON_NETWORK. *)
Theorem events_per_call (input : RawCall) :
  (forwarded input ∨ ∃ matchResult, matched_by input matchResult) ∧
  (forwarded input → ∀ response, originalFetch input = Ok response →
     ∃ evs, wrappedFetch input = Some (Ok response, evs) ∧
       count ON_NETWORK evs = 1 ∧ count ON_RESPONSE evs = 1 ∧
       count ON_MOCK evs = 0) ∧
  (∀ matchResult, matched_by input matchResult →
     ∃ response evs, wrappedFetch input = Some (Ok response, evs) ∧
       count ON_MOCK evs = 1 ∧ count ON_RESPONSE evs = 1 ∧
       count ON_NETWORK evs = 0).
Proof.
  split_and!.
  - unfold forwarded, unmatched, failed_before_match, matched_by.
    destruct (parse input) as [rq|e] eqn:Hparse.
    + destruct (match_ toUpperCase routes (method rq) (path rq))
        as [[mr|]|e] eqn:Hmatch.
      * right. by exists mr, rq.
      * left. left. by exists rq.
      * left. right. right. by exists rq, e.
    + left. right. left. by exists e.
  - intros Hfwd response Hfetch.
    destruct (wrappedFetch_forwarded input Hfwd)
      as (mo & pre & -> & Hn & Hr & Hm).
    unfold forwardToOriginalFetch, after. rewrite Hfetch. simpl.
    eexists. split; [done|]. rewrite !count_app, Hn, Hr, Hm. done.
  - intros matchResult (rq & Hparse & Hmatch).
    destruct (wrappedFetch_matched input rq matchResult Hparse Hmatch)
      as (response & ->).
    by eexists response, _.
Qed.

(** C5. When a forwarded call's network function rejects, the caller gets
    that rejection and no ON_RESPONSE is emitted; every rejection the
    caller sees is such a one; a matched request resolves. *)
Theorem only_network_failures_escape (input : RawCall) :
  (∀ error, forwarded input → originalFetch input = Throw error →
     ∃ evs, wrappedFetch input = Some (Throw error, evs) ∧
       count ON_RESPONSE evs = 0 ∧ count ON_NETWORK evs = 1) ∧
  (∀ error evs, wrappedFetch input = Some (Throw error, evs) →
     forwarded input ∧ originalFetch input = Throw error) ∧
  (∀ matchResult, matched_by input matchResult →
     ∃ response evs, wrappedFetch input = Some (Ok response, evs)).
Proof.
  split_and!.
  - intros error Hfwd Hfetch.
    destruct (wrappedFetch_forwarded input Hfwd)
      as (mo & pre & -> & Hn & Hr & _).
    unfold forwardToOriginalFetch, after. rewrite Hfetch. simpl.
    eexists. split; [done|]. rewrite !count_app, Hn, Hr. done.
  - apply wrappedFetch_rejects.
  - intros matchResult (rq & Hparse & Hmatch).
    destruct (wrappedFetch_matched input rq matchResult Hparse Hmatch)
      as (response & ->).
    by eexists response, _.
Qed.

End Wrapper.

(** *** A wrapper with one route and one middleware *)

(** Scenario A of the specification: GET ["/users/:id"] answers with the
    captured id. *)
Definition users_handler
    : MockRequest unit (gmap string string) → Result Response :=
  λ req, Ok {| status := 200;
               response_headers := [("Content-Type", "application/json")];
               response_body := Json [("id", default "" (params req !! "id"))] |}.

Definition mock_routes
    : Routes (MockRequest unit (gmap string string) → Result Response) :=
  match register toUpperCase_ascii pathToRegexp_segments GET "/users/:id"
          users_handler no_options [] with
  | Ok routes => routes
  | Throw _ => []
  end.

(** Calls are given by their path; the empty input does not parse. *)
Definition parse_path (input : string)
    : Result (MockRequest unit (gmap string string)) :=
  match input with
  | EmptyString => Throw (TypeError "Invalid URL")
  | _ => Ok {| body := (); baseUrl := "http://localhost"; method := "GET";
               params := ∅; query := ∅; path := input; host := "localhost";
               hostname := "localhost"; headers := ∅ |}
  end.

Definition network_up (input : string) : Result Response :=
  Ok {| status := 200; response_headers := []; response_body := Text input |}.

Definition network_down (input : string) : Result Response :=
  Throw (TypeError "Failed to fetch").

Definition events_of (s : option (Settled (Body := unit))) : list EventType :=
  match s with
  | Some (_, evs) => event <$> evs
  | None => []
  end.

(** Scenario A: the mocked call resolves with the handler's response. *)
Example scenario_A :
  fst <$> wrappedFetch toUpperCase_ascii parse_path network_down mock_routes
            [pass_through] "/users/42"
  = Some (Ok {| status := 200;
                response_headers := [("Content-Type", "application/json")];
                response_body := Json [("id", "42")] |}).
Proof. reflexivity. Qed.

(** A capture that does not decode makes [match] throw; the call is
    forwarded as if no route had matched. *)
Example malformed_capture_is_forwarded :
  events_of (wrappedFetch toUpperCase_ascii parse_path network_up mock_routes
               [pass_through] "/users/%")
  = [ON_REQUEST; ON_NETWORK; ON_RESPONSE].
Proof. reflexivity. Qed.

(** The result [match] returns for ["/users/42"]. *)
Definition users_42 : MatchResult (MockRequest unit (gmap string string) → Result Response) :=
  {| mr_handler := users_handler; mr_params := {["id" := "42"]};
     mr_options := no_options |}.

(** C2, counterexample. The pattern of the route GET ["/users/:id"] accepts
    the path ["/users/%"], yet the call emits ON_REQUEST, ON_NETWORK and
    ON_RESPONSE and no ON_MOCK, and resolves with the network's response. *)
Lemma accepted_path_goes_to_network :
  Forall (λ kr, routeMethod kr.1 = "GET" ∧
                exec (pattern kr.2) "/users/%" = Some [Some "/users/%"; Some "%"])
         mock_routes ∧
  mock_routes.*1 = ["GET:/users/:id"] ∧
  ∃ evs,
    wrappedFetch toUpperCase_ascii parse_path network_up mock_routes
      [pass_through] "/users/%"
      = Some (Ok {| status := 200; response_headers := [];
                    response_body := Text "/users/%" |}, evs) ∧
    event <$> evs = [ON_REQUEST; ON_NETWORK; ON_RESPONSE] ∧
    count ON_MOCK evs = 0 ∧ count ON_NETWORK evs = 1 ∧ count ON_RESPONSE evs = 1.
Proof.
  split_and!; [by repeat constructor|reflexivity|].
  eexists. split_and!; reflexivity.
Qed.

(** ["/posts/1"] matches no route and ["/users/%"] makes the matcher throw:
    both reach the network; ["/users/42"] is mocked. *)
Lemma events_per_call_witness :
  (∃ evs,
     wrappedFetch toUpperCase_ascii parse_path network_up mock_routes
       [pass_through] "/posts/1"
       = Some (Ok {| status := 200; response_headers := [];
                     response_body := Text "/posts/1" |}, evs) ∧
     count ON_NETWORK evs = 1 ∧ count ON_RESPONSE evs = 1 ∧ count ON_MOCK evs = 0) ∧
  (∃ evs,
     wrappedFetch toUpperCase_ascii parse_path network_up mock_routes
       [pass_through] "/users/%"
       = Some (Ok {| status := 200; response_headers := [];
                     response_body := Text "/users/%" |}, evs) ∧
     count ON_NETWORK evs = 1 ∧ count ON_RESPONSE evs = 1 ∧ count ON_MOCK evs = 0) ∧
  (∃ response evs,
     wrappedFetch toUpperCase_ascii parse_path network_up mock_routes
       [pass_through] "/users/42" = Some (Ok response, evs) ∧
     count ON_MOCK evs = 1 ∧ count ON_RESPONSE evs = 1 ∧ count ON_NETWORK evs = 0).
Proof.
  split_and!.
  - apply (proj1 (proj2 (events_per_call toUpperCase_ascii parse_path network_up
                           mock_routes [pass_through] "/posts/1"))).
    + left. eexists. split; reflexivity.
    + reflexivity.
  - apply (proj1 (proj2 (events_per_call toUpperCase_ascii parse_path network_up
                           mock_routes [pass_through] "/users/%"))).
    + right. right. eexists _, _. split; reflexivity.
    + reflexivity.
  - apply (proj2 (proj2 (events_per_call toUpperCase_ascii parse_path network_up
                           mock_routes [pass_through] "/users/42")) users_42).
    eexists. split; reflexivity.
Defined.

(** The network is down: the unmatched call rejects with the network's
    error and emits no ON_RESPONSE; the mocked call still resolves. *)
Lemma only_network_failures_escape_witness :
  (∃ evs,
     wrappedFetch toUpperCase_ascii parse_path network_down mock_routes
       [pass_through] "/posts/1" = Some (Throw (TypeError "Failed to fetch"), evs) ∧
     count ON_RESPONSE evs = 0 ∧ count ON_NETWORK evs = 1) ∧
  (∃ response evs,
     wrappedFetch toUpperCase_ascii parse_path network_down mock_routes
       [pass_through] "/users/42" = Some (Ok response, evs)).
Proof.
  split.
  - apply (proj1 (only_network_failures_escape toUpperCase_ascii parse_path
                    network_down mock_routes [pass_through] "/posts/1")).
    + left. eexists. split; reflexivity.
    + reflexivity.
  - apply (proj2 (proj2 (only_network_failures_escape toUpperCase_ascii parse_path
                           network_down mock_routes [pass_through] "/users/42"))
             users_42).
    eexists. split; reflexivity.
Defined.

End FetchWrapper.

(** * Further properties of the components *)

(** ** Route matcher: registration order, removal, parameters *)

Module RouteMatcherProps.

Import RouteMatcher.

Section Props.
Context {MockHandler : Type}.
Variable toUpperCase : string → string.
Variable pathToRegexp : string → Result (RegExp * list Key).

Local Abbreviation Routes := (list (string * RouteEntry MockHandler)).
Local Abbreviation routeKey := (RouteMatcher.routeKey toUpperCase).
Local Abbreviation match_ := (RouteMatcher.match_ (MockHandler := MockHandler) toUpperCase).
Local Abbreviation register := (RouteMatcher.register (MockHandler := MockHandler) toUpperCase pathToRegexp).
Local Abbreviation unregister := (RouteMatcher.unregister (MockHandler := MockHandler) toUpperCase).

(** *** The ordered map *)

Lemma map_has_keys {V : Type} (k : string) (m : list (string * V)) :
  map_has k m = true ↔ k ∈ m.*1.
Proof.
  unfold map_has. induction m as [|[k' v'] m IH]; simpl.
  - split; [done|]. by intros ?%elem_of_nil.
  - destruct (decide (k = k')) as [->|Hne].
    + split; [intros _; by left|done].
    + rewrite IH. split; [by right|].
      intros [?|?]%elem_of_cons; [done|done].
Qed.

Lemma filter_all {A : Type} (P : A → Prop) `{∀ x, Decision (P x)} (l : list A) :
  Forall P l → filter P l = l.
Proof.
  induction 1 as [|x l Hx Hl IH]; [done|].
  rewrite filter_cons_True by done. by f_equal.
Qed.

Lemma map_delete_filter {V : Type} (k : string) (m : list (string * V)) :
  NoDup m.*1 → map_delete k m = filter (λ kv, kv.1 ≠ k) m.
Proof.
  induction m as [|[k' v'] m IH]; intros Hnd; [done|].
  simpl in Hnd. apply NoDup_cons in Hnd as [Hk' Hnd]. simpl.
  rewrite filter_cons. simpl.
  destruct (decide (k = k')) as [->|Hne].
  - rewrite decide_False by (by intros ?).
    symmetry. apply filter_all. apply Forall_forall. intros [k v] Hin Heq.
    simpl in Heq. subst. apply Hk'. apply list_elem_of_fmap. by exists (k', v).
  - rewrite decide_True by done. f_equal. by apply IH.
Qed.

Lemma map_delete_fresh {V : Type} (k : string) (m : list (string * V)) :
  k ∉ m.*1 → map_delete k m = m.
Proof.
  induction m as [|[k' v'] m IH]; intros Hk; [done|]. simpl in *.
  apply not_elem_of_cons in Hk as [Hne Hk].
  rewrite decide_False by done. f_equal. by apply IH.
Qed.

Lemma map_delete_last {V : Type} (k : string) (v : V) (m : list (string * V)) :
  k ∉ m.*1 → map_delete k (m ++ [(k, v)]) = m.
Proof.
  induction m as [|[k' v'] m IH]; intros Hk; simpl.
  - by rewrite decide_True.
  - simpl in Hk. apply not_elem_of_cons in Hk as [Hne Hk].
    rewrite decide_False by done. f_equal. by apply IH.
Qed.

Lemma map_set_keys_NoDup {V : Type} (k : string) (v : V) (m : list (string * V)) :
  NoDup m.*1 → NoDup (map_set k v m).*1.
Proof.
  intros Hnd. destruct (decide (k ∈ m.*1)) as [Hin|Hout].
  - apply list_elem_of_fmap in Hin as ([k' v0] & -> & Hin).
    apply list_elem_of_lookup in Hin as [i Hi]. simpl.
    rewrite (RouteMatcher.map_set_at _ _ v0 _ i) by done.
    rewrite list_fmap_insert. simpl. rewrite list_insert_id; [done|].
    by rewrite list_lookup_fmap, Hi.
  - rewrite RouteMatcher.map_set_fresh by done.
    rewrite fmap_app. simpl. apply NoDup_app. split_and!; [done| |apply NoDup_singleton].
    intros x Hx ->%list_elem_of_singleton. done.
Qed.

(** *** [match] and entries appended behind *)

Lemma match_from_app (routes more : Routes) (nm path : string) :
  match_from (routes ++ more) nm path =
    match match_from routes nm path with
    | Ok None => match_from more nm path
    | r => r
    end.
Proof.
  induction routes as [|[k r] routes IH]; simpl; [by destruct (match_from more nm path) as [[?|]|]|].
  destruct (decide (routeMethod k = nm)); [|done].
  destruct (exec (pattern r) path) as [m|]; [|done].
  unfold matched. by destruct (extractParams (keys r) m).
Qed.

(** X1. A registration under a key not yet in the registry goes to the end:
    [getRoutes] lists it last and [match] turns to it only when no earlier
    entry answered (with a result or with an error). *)
Theorem register_new_is_last (routes : Routes) (method : HttpMethod)
    (path : string) (h : MockHandler) (o : MockOptions) (re : RegExp)
    (ks : list Key) :
  routeKey method path ∉ routes.*1 →
  pathToRegexp path = Ok (re, ks) →
  let entry := {| pattern := re; keys := ks; handler := h; options := o;
                  originalPath := path |} in
  let routes' := routes ++ [(routeKey method path, entry)] in
  register method path h o routes = Ok routes' ∧
  getRoutes routes' =
    getRoutes routes ++ [{| ri_method := routeMethod (routeKey method path);
                            ri_path := path; ri_options := o |}] ∧
  ∀ meth p,
    match_ routes' meth p =
      match match_ routes meth p with
      | Ok None => match_from [(routeKey method path, entry)] (toUpperCase meth) p
      | r => r
      end.
Proof.
  intros Hfresh Hc entry routes'. split_and!.
  - unfold register, RouteMatcher.register. rewrite Hc. simpl.
    by rewrite RouteMatcher.map_set_fresh.
  - unfold routes', getRoutes. by rewrite fmap_app.
  - intros meth p. unfold match_, RouteMatcher.match_, routes'.
    apply match_from_app.
Qed.

(** X2. With [toUpperCase] leaving the five method names as they are, the
    key of a route gives back its method through [split(':')[0]], also when
    the path contains colons, and two routes share a key only when method
    and path are the same. *)
Theorem routeKey_round_trip :
  (∀ m, toUpperCase (method_string m) = method_string m) →
  ∀ m p,
    routeMethod (routeKey m p) = method_string m ∧
    ∀ m' p', routeKey m p = routeKey m' p' → m = m' ∧ p = p'.
Proof.
  intros Hup.
  assert (Hrt : ∀ m p, routeMethod (routeKey m p) = method_string m).
  { intros m p. unfold RouteMatcher.routeKey. rewrite Hup. by destruct m. }
  intros m p. split; [apply Hrt|]. intros m' p' Heq.
  assert (Hm : method_string m = method_string m').
  { by rewrite <- (Hrt m p), <- (Hrt m' p'), Heq. }
  assert (m = m') as <- by (by destruct m, m').
  split; [done|]. unfold RouteMatcher.routeKey in Heq. rewrite Hup in Heq.
  destruct m; cbv [String.append method_string] in Heq; congruence.
Qed.

(** X3. On a registry with distinct keys, [unregister] answers [true]
    exactly when the key is registered, removes that entry and no other,
    keeps the order of the rest, and a second [unregister] of the same key
    answers [false] and changes nothing. *)
Theorem unregister_removes (routes : Routes) (method : HttpMethod) (path : string) :
  NoDup routes.*1 →
  let key := routeKey method path in
  let r := unregister method path routes in
  (r.1 = true ↔ key ∈ routes.*1) ∧
  r.2 = filter (λ kr, kr.1 ≠ key) routes ∧
  (key ∉ fst <$> r.2) ∧ NoDup (fst <$> r.2) ∧
  unregister method path r.2 = (false, r.2).
Proof.
  intros Hnd key r.
  assert (Hr2 : r.2 = filter (λ kr, kr.1 ≠ key) routes).
  { unfold r, unregister, RouteMatcher.unregister. simpl. by apply map_delete_filter. }
  assert (Hout : key ∉ (fst <$> r.2)).
  { rewrite Hr2. intros ([k v] & Hk & Hin)%list_elem_of_fmap.
    apply list_elem_of_filter in Hin as [Hne _]. simpl in *. by subst. }
  split_and!; try done.
  - apply map_has_keys.
  - rewrite Hr2. apply (NoDup_fmap_2_strong fst).
    + intros [k1 v1] [k2 v2] H1%list_elem_of_filter H2%list_elem_of_filter Hk.
      simpl in Hk. subst. destruct H1 as [_ H1], H2 as [_ H2].
      apply list_elem_of_lookup in H1 as [i Hi], H2 as [j Hj].
      assert (i = j) as ->; [|congruence].
      eapply (NoDup_lookup _ _ _ k2 Hnd); by rewrite list_lookup_fmap, ?Hi, ?Hj.
    + apply NoDup_filter. by eapply NoDup_fmap_1.
  - unfold unregister, RouteMatcher.unregister. f_equal.
    + apply not_true_is_false. by rewrite map_has_keys.
    + by apply map_delete_fresh.
Qed.

(** X4. Registering under a new key and unregistering it again gives the
    registry back as it was. *)
Theorem register_unregister (routes : Routes) (method : HttpMethod)
    (path : string) (h : MockHandler) (o : MockOptions) :
  routeKey method path ∉ routes.*1 →
  is_ok (pathToRegexp path) →
  ∃ routes',
    register method path h o routes = Ok routes' ∧
    unregister method path routes' = (true, routes).
Proof.
  intros Hfresh Hc. destruct (pathToRegexp path) as [[re ks]|] eqn:Hp; [|done].
  eexists. split.
  - unfold register, RouteMatcher.register. rewrite Hp. simpl.
    by rewrite RouteMatcher.map_set_fresh.
  - unfold unregister, RouteMatcher.unregister. f_equal.
    + apply map_has_keys. rewrite fmap_app. apply elem_of_app. right. by left.
    + by apply map_delete_last.
Qed.

(** *** Parameters *)

Lemma extractParams_from_dom (ks : list Key) (m : RegExpExecArray)
    (index : nat) (acc params : gmap string string) :
  extractParams_from index ks m acc = Ok params →
  ∀ n, (is_Some (acc !! n) ∨
        (n ≠ "__proto__" ∧
         ∃ i key value, ks !! i = Some key ∧ name key = n ∧
           m !! (index + i + 1) = Some (Some value))) →
       is_Some (params !! n).
Proof.
  revert index acc. induction ks as [|key ks IH]; intros index acc H n Hn; simpl in H.
  - injection H as ->. destruct Hn as [?|(_ & i & k & v & Hi & _)]; [done|].
    by rewrite lookup_nil in Hi.
  - assert (Hshift : ∀ i, index + S i + 1 = S index + i + 1) by lia.
    destruct (m !! (index + 1)) as [[value|]|] eqn:Hm.
    + destruct (decodeURIComponent value) as [v'|e] eqn:Hd; simpl in H; [|done].
      apply (IH _ _ H). unfold assign.
      destruct Hn as [Hacc|(Hp & i & k & v & Hi & Hk & Hv)].
      * left. destruct (decide (name key = "__proto__")); [done|].
        destruct (decide (name key = n)) as [<-|Hne].
        -- rewrite lookup_insert_eq. by eexists.
        -- by rewrite lookup_insert_ne.
      * destruct i as [|i]; simpl in Hi.
        -- injection Hi as ->. left. rewrite Hk.
           rewrite decide_False by done. rewrite lookup_insert_eq. by eexists.
        -- right. split; [done|]. exists i, k, v. by rewrite <- Hshift.
    + apply (IH _ _ H). destruct Hn as [Hacc|(Hp & i & k & v & Hi & Hk & Hv)]; [by left|].
      destruct i as [|i]; simpl in Hi.
      * replace (index + 0 + 1) with (index + 1) in Hv by lia. congruence.
      * right. split; [done|]. exists i, k, v. by rewrite <- Hshift.
    + apply (IH _ _ H). destruct Hn as [Hacc|(Hp & i & k & v & Hi & Hk & Hv)]; [by left|].
      destruct i as [|i]; simpl in Hi.
      * replace (index + 0 + 1) with (index + 1) in Hv by lia. congruence.
      * right. split; [done|]. exists i, k, v. by rewrite <- Hshift.
Qed.

(** No step of the extraction writes an own property ["__proto__"]. *)
Lemma extractParams_from_proto (ks : list Key) (m : RegExpExecArray)
    (index : nat) (acc params : gmap string string) :
  extractParams_from index ks m acc = Ok params →
  params !! "__proto__" = acc !! "__proto__".
Proof.
  revert index acc. induction ks as [|key ks IH]; intros index acc H; simpl in H.
  - by injection H as ->.
  - destruct (m !! (index + 1)) as [[value|]|]; [|by eapply IH..].
    destruct (decodeURIComponent value) as [v|e]; simpl in H; [|done].
    rewrite (IH _ _ H). unfold assign.
    destruct (decide (name key = "__proto__")) as [|Hne]; [done|].
    by rewrite lookup_insert_ne.
Qed.

(** X5. The own properties of the object [extractParams] returns are those
    of the keys whose capture group took part in the match, the name
    ["__proto__"] apart, no more and no fewer: a key whose group is
    [undefined] (an optional segment left out) is absent, not present with
    an empty value, and a key named ["__proto__"] leaves no property. *)
Theorem extractParams_domain (ks : list Key) (m : RegExpExecArray)
    (params : gmap string string) :
  extractParams ks m = Ok params →
  ∀ n, is_Some (params !! n) ↔
       n ≠ "__proto__" ∧ ∃ value, captured ks m n value.
Proof.
  intros H n. split.
  - intros [v Hv]. split.
    + intros ->. rewrite (extractParams_from_proto _ _ _ _ _ H) in Hv.
      by rewrite lookup_empty in Hv.
    + destruct (RouteMatcher.extractParams_from_ok _ _ _ _ _ H n v Hv)
        as [Hacc|(i & k & value & Hi & Hk & Hval & _)].
      * by rewrite lookup_empty in Hacc.
      * exists value, i, k. done.
  - intros (Hp & value & i & k & Hi & Hk & Hval).
    apply (extractParams_from_dom _ _ _ _ _ H). right. split; [done|].
    by exists i, k, value.
Qed.

Definition percent_free (s : string) : bool :=
  all_chars (λ c, bool_decide (c ≠ "%"%char)) s.

Lemma decode_percent_free (s : string) :
  percent_free s → decodeURIComponent s = Ok s.
Proof.
  unfold decodeURIComponent, percent_free.
  enough (all_chars (λ c, bool_decide (c ≠ "%"%char)) s →
          escapes s ≫= decodeUnits = Some s) as Hs by (intros H; by rewrite Hs).
  induction s as [|c s IH]; [done|]. simpl.
  intros [Hc Hs]%andb_prop_elim. apply bool_decide_unpack in Hc.
  rewrite decide_False by done. specialize (IH Hs).
  destruct (escapes s) as [us|]; simpl in *; [|done]. by rewrite IH.
Qed.

Lemma extractParams_from_percent_free (ks : list Key) (m : RegExpExecArray)
    (index : nat) (acc : gmap string string) :
  (∀ i v, m !! i = Some (Some v) → percent_free v) →
  is_ok (extractParams_from index ks m acc).
Proof.
  intros Hm. revert index acc. induction ks as [|key ks IH]; intros index acc; [done|].
  simpl. destruct (m !! (index + 1)) as [[value|]|] eqn:Hv; [|apply IH..].
  rewrite (decode_percent_free value) by by eapply Hm. simpl. apply IH.
Qed.

(** X6. [match] throws only on a percent sign: when the captures of every
    pattern that accepts the path contain no ["%"], [match] returns a result
    or the no-match signal. *)
Theorem match_percent_free (routes : Routes) (method path : string) :
  (∀ kr m i v, kr ∈ routes → exec (pattern kr.2) path = Some m →
     m !! i = Some (Some v) → percent_free v) →
  is_ok (match_ routes method path).
Proof.
  unfold match_, RouteMatcher.match_. generalize (toUpperCase method) as nm.
  induction routes as [|[k r] routes IH]; intros nm Hfree; [done|]. simpl.
  assert (Hrest : is_ok (match_from routes nm path)).
  { apply IH. intros kr m i v Hin. apply Hfree. by right. }
  destruct (decide (routeMethod k = nm)); [|done].
  destruct (exec (pattern r) path) as [m|] eqn:He; [|done].
  unfold matched, extractParams.
  pose proof (extractParams_from_percent_free (keys r) m 0 ∅
                (λ i v, Hfree (k, r) m i v ltac:(by left) He)) as Hok.
  by destruct (extractParams_from 0 (keys r) m ∅).
Qed.

End Props.

(** On the sample registry. *)
Lemma register_new_is_last_witness :
  ∃ routes',
    register toUpperCase_ascii pathToRegexp_segments DELETE "/users/:id" 9
      no_options users_routes = Ok routes' ∧
    ri_method <$> getRoutes routes' = ["POST"; "GET"; "GET"; "GET"; "DELETE"] ∧
    match_ toUpperCase_ascii routes' "GET" "/users/123"
      = match_ toUpperCase_ascii users_routes "GET" "/users/123".
Proof.
  destruct (register_new_is_last toUpperCase_ascii pathToRegexp_segments
              users_routes DELETE "/users/:id" 9 no_options
              {| exec := exec_tokens [Lit "users"; Param "id"] |}
              [{| name := "id" |}])
    as (Hreg & Hget & Hmatch).
  - rewrite users_routes_keys. apply (bool_decide_unpack _). vm_compute. exact I.
  - reflexivity.
  - eexists. split_and!; [exact Hreg|by rewrite Hget|by rewrite Hmatch].
Defined.

Lemma routeKey_round_trip_witness :
  routeMethod (routeKey toUpperCase_ascii GET "/users/:id") = "GET" ∧
  (routeKey toUpperCase_ascii GET "/a:b" = routeKey toUpperCase_ascii GET "/a:b" →
   GET = GET ∧ "/a:b" = "/a:b").
Proof.
  destruct (routeKey_round_trip toUpperCase_ascii
              (λ m, match m with GET | POST | PUT | PATCH | DELETE => eq_refl end)
              GET "/users/:id") as [Hm _].
  destruct (routeKey_round_trip toUpperCase_ascii
              (λ m, match m with GET | POST | PUT | PATCH | DELETE => eq_refl end)
              GET "/a:b") as [_ Hinj].
  split; [exact Hm|apply Hinj].
Defined.

Lemma unregister_removes_witness :
  (unregister toUpperCase_ascii GET "/posts" users_routes).1 = true ∧
  ((unregister toUpperCase_ascii GET "/posts" users_routes).2).*1
    = ["POST:/users/:id"; "GET:/users/:id"; "GET:/users/123"] ∧
  (unregister toUpperCase_ascii GET "/posts"
     (unregister toUpperCase_ascii GET "/posts" users_routes).2).1 = false.
Proof.
  destruct (unregister_removes toUpperCase_ascii users_routes GET "/posts")
    as (Hb & Hr & _ & _ & Hagain).
  - rewrite users_routes_keys. apply (bool_decide_unpack _). vm_compute. exact I.
  - split_and!; [|reflexivity|by rewrite Hagain].
    apply Hb. rewrite users_routes_keys. apply (bool_decide_unpack _). vm_compute. exact I.
Defined.

Lemma register_unregister_witness :
  ∃ routes',
    register toUpperCase_ascii pathToRegexp_segments PUT "/users/:id" 5
      no_options users_routes = Ok routes' ∧
    unregister toUpperCase_ascii PUT "/users/:id" routes' = (true, users_routes).
Proof.
  apply (register_unregister toUpperCase_ascii pathToRegexp_segments).
  - rewrite users_routes_keys. apply (bool_decide_unpack _). vm_compute. exact I.
  - exact I.
Defined.

(** An optional segment left out: the key has no parameter.  A key named
    ["__proto__"], as the route ["/x/:__proto__"] has it, leaves none
    either. *)
Example extractParams_proto_key :
  extractParams [{| name := "__proto__" |}] [Some "/x/1"; Some "1"] = Ok ∅ ∧
  extractParams [{| name := "__proto__" |}] [Some "/x/%"; Some "%"]
    = Throw (URIError "URI malformed").
Proof. by split. Qed.

Lemma extractParams_domain_witness :
  extractParams [{| name := "id" |}; {| name := "tab" |}]
    [Some "/users/7"; Some "7"; None] = Ok {["id" := "7"]} ∧
  (is_Some (({["id" := "7"]} : gmap string string) !! "tab") ↔
   "tab" ≠ "__proto__" ∧
   ∃ value, captured [{| name := "id" |}; {| name := "tab" |}]
              [Some "/users/7"; Some "7"; None] "tab" value).
Proof.
  split; [reflexivity|].
  apply (extractParams_domain [{| name := "id" |}; {| name := "tab" |}]
           [Some "/users/7"; Some "7"; None]).
  reflexivity.
Defined.

Lemma match_percent_free_witness :
  is_ok (match_ toUpperCase_ascii (reg GET "/users/:id" 0 []) "GET" "/users/42").
Proof.
  apply match_percent_free.
  intros kr m i v Hin He Hv.
  apply list_elem_of_singleton in Hin as ->.
  vm_compute in He. injection He as <-.
  destruct i as [|[|[|i]]]; simpl in Hv; try discriminate; by injection Hv as <-.
Defined.

End RouteMatcherProps.

(** ** Middleware pipeline: order, short circuit, failing middleware *)

Module MiddlewarePipelineProps.

Import MiddlewarePipeline.

Section Props.
Context {MockRequest Response : Type}.

Local Abbreviation Middleware := (MockRequest → Prog Response).
Local Abbreviation Outcome := (option (Result Response * State)).

(** [async () => response]: answers without calling [next]. *)
Definition short_circuit (response : Response) : Middleware :=
  λ _, Return response.

(** *** More fuel changes nothing *)

Lemma run_mono (nx nx' : State → Outcome) :
  (∀ st r, nx st = Some r → nx' st = Some r) →
  ∀ p called st r, run nx p called st = Some r → run nx' p called st = Some r.
Proof.
  intros Hnx p. induction p as [r0|e|k IH]; intros called st r; simpl; [done|done|].
  destruct called; [apply IH|].
  destruct (nx st) as [[o st']|] eqn:Hn; [|done].
  rewrite (Hnx _ _ Hn). apply IH.
Qed.

Lemma next_mono (middlewares : list Middleware) (request : MockRequest)
    (finalHandler : Result Response) (fuel : nat) :
  ∀ st r, next fuel middlewares request finalHandler st = Some r →
          next (S fuel) middlewares request finalHandler st = Some r.
Proof.
  induction fuel as [|fuel IH]; intros st r H; [done|].
  rewrite next_unfold in H. rewrite next_unfold.
  destruct (middlewares !! index st) as [mw|]; [|done].
  destruct (run (next fuel middlewares request finalHandler) (mw request) false _)
    as [[o st2]|] eqn:Hrun; [|done].
  rewrite (run_mono _ _ IH _ _ _ _ Hrun).
  destruct o as [resp|e]; [done|]. by apply IH.
Qed.

Lemma next_mono_add (middlewares : list Middleware) (request : MockRequest)
    (finalHandler : Result Response) (fuel extra : nat) :
  ∀ st r, next fuel middlewares request finalHandler st = Some r →
          next (extra + fuel) middlewares request finalHandler st = Some r.
Proof.
  induction extra as [|extra IH]; intros st r H; [done|].
  simpl. apply next_mono. by apply IH.
Qed.

(** *** A run of pass-through middleware *)

Lemma next_pass_through (n : nat) (tail : list Middleware) (request : MockRequest)
    (finalHandler : Result Response) (fuel : nat) (response : Response)
    (st : State) :
  ∀ k i t, i + k = n →
    next fuel (replicate n pass_through ++ tail) request finalHandler
      {| index := n; trace := t ++ (Invoked <$> seq i k) |} = Some (Ok response, st) →
    next (fuel + k) (replicate n pass_through ++ tail) request finalHandler
      {| index := i; trace := t |} = Some (Ok response, st).
Proof.
  induction k as [|k IH]; intros i t Hik H.
  - simpl in H. rewrite app_nil_r in H. rewrite Nat.add_0_r.
    by replace i with n by lia.
  - rewrite Nat.add_succ_r, next_unfold. simpl.
    rewrite lookup_app_l by (rewrite length_replicate; lia).
    rewrite lookup_replicate_2 by lia. simpl.
    rewrite (IH (S i) (t ++ [Invoked i])); [done|lia|].
    by rewrite <- app_assoc.
Qed.

(** X7. Whatever the middlewares do, the pipeline settles, and it
    resolves when the terminal operation resolves: an error thrown by a
    middleware never reaches the caller of [execute]. *)
Theorem execute_resolves (middlewares : list Middleware) (request : MockRequest)
    (response : Response) :
  ∃ response' st,
    execute middlewares request (Ok response) = Some (Ok response', st).
Proof.
  destruct (execute_settles middlewares request (Ok response)) as (o & st & H & Hok).
  destruct o as [response'|e]; [by exists response', st|].
  by specialize (Hok I).
Qed.

(** X8. Middleware that only hand on to [next()] run once each, in
    registration order, before the terminal operation, whose response is
    the result. *)
Theorem pass_through_in_order (n : nat) (request : MockRequest) (response : Response) :
  execute (replicate n pass_through) request (Ok response) =
    Some (Ok response,
          {| index := n; trace := (Invoked <$> seq 0 n) ++ [FinalHandler] |}).
Proof.
  unfold execute. rewrite length_replicate.
  rewrite <- (app_nil_r (replicate n pass_through)).
  replace (S n) with (1 + n) by done.
  apply (next_pass_through n [] request (Ok response) 1 response _ n 0 []); [done|].
  rewrite next_unfold. simpl.
  rewrite lookup_ge_None_2 by (rewrite app_nil_r, length_replicate; lia).
  done.
Qed.

(** X9. Behind middleware that only hand on to [next()], a middleware that
    answers without calling [next()] ends the chain: its response is the
    result, and neither the middleware registered after it nor the terminal
    operation runs. *)
Theorem short_circuit_stops_chain (n : nat) (rest : list Middleware)
    (request : MockRequest) (early : Response) (finalHandler : Result Response) :
  execute (replicate n pass_through ++ short_circuit early :: rest)
    request finalHandler =
    Some (Ok early, {| index := S n; trace := Invoked <$> seq 0 (S n) |}).
Proof.
  assert (Invoked <$> seq 0 (S n) = (Invoked <$> seq 0 n) ++ [Invoked n]) as ->
    by (by rewrite seq_S, fmap_app).
  unfold execute. rewrite length_app, length_replicate.
  change (length (short_circuit early :: rest)) with (S (length rest)).
  replace (S (n + S (length rest))) with (S (S (length rest)) + n) by lia.
  apply (next_pass_through n _ request finalHandler _ early _ n 0 []); [done|].
  rewrite next_unfold. simpl.
  rewrite lookup_app_r by (rewrite length_replicate; lia).
  by rewrite length_replicate, Nat.sub_diag.
Qed.

(** *** Leaving out a middleware that throws at once *)

Section Skip.
Variables (pre post : list Middleware) (thrower : Middleware).
Variable request : MockRequest.
Variable finalHandler : Result Response.
Variable error : JsError.
Hypothesis thrower_throws : thrower request = Raise error.

(** Positions in the chain with the thrower and in the chain without it. *)
Definition aligned (st st' : State) : Prop :=
  (index st ≤ length pre ∧ index st' = index st) ∨
  (length pre < index st ∧ S (index st') = index st).

Lemma run_same (nx nx' : State → Outcome) (i0 : nat) :
  (∀ st st', aligned st st' → i0 ≤ index st →
     ∃ o s s', nx st = Some (o, s) ∧ nx' st' = Some (o, s') ∧
               aligned s s' ∧ index st ≤ index s) →
  ∀ p called st st', aligned st st' → i0 ≤ index st →
    ∃ o s s', run nx p called st = Some (o, s) ∧ run nx' p called st' = Some (o, s') ∧
              aligned s s' ∧ index st ≤ index s.
Proof.
  intros Hnx p. induction p as [r|e|k IH]; intros called st st' Hal Hst; simpl.
  - by exists (Ok r), st, st'.
  - by exists (Throw e), st, st'.
  - destruct called; [by apply IH|].
    destruct (Hnx st st' Hal Hst) as (o & s & s' & -> & -> & Hal' & Hle).
    destruct (IH o true s s' Hal') as (o' & s2 & s2' & -> & -> & Hal2 & Hle2); [lia|].
    exists o', s2, s2'. split_and!; [done|done|done|lia].
Qed.

Lemma next_aligned (fuel : nat) :
  ∀ st st', aligned st st' →
    length (pre ++ thrower :: post) - index st < fuel →
    ∃ o s s',
      next fuel (pre ++ thrower :: post) request finalHandler st = Some (o, s) ∧
      next fuel (pre ++ post) request finalHandler st' = Some (o, s') ∧
      aligned s s' ∧ index st ≤ index s.
Proof.
  induction fuel as [|fuel IH]; intros st st' Hal Hfuel; [lia|].
  rewrite length_app in Hfuel. simpl in Hfuel.
  assert (Hnx : index st < length pre + S (length post) →
            ∀ i0, ∀ s s', aligned s s' → i0 ≤ index s → index st < i0 →
            ∃ o t t',
              next fuel (pre ++ thrower :: post) request finalHandler s = Some (o, t) ∧
              next fuel (pre ++ post) request finalHandler s' = Some (o, t') ∧
              aligned t t' ∧ index s ≤ index t).
  { intros Hin i0 s s' Hs Hi0 Hlt. apply IH; [done|]. rewrite length_app. simpl. lia. }
  rewrite !next_unfold.
  destruct (decide (index st < length pre)) as [Hlt|Hge].
  - (* before the thrower: the same middleware on both sides *)
    destruct Hal as [[_ Heq]|[? _]]; [|lia]. rewrite Heq.
    rewrite !lookup_app_l by done.
    destruct (pre !! index st) as [mw|] eqn:Hmw;
      [|apply lookup_ge_None in Hmw; lia].
    assert (Hin : index st < length pre + S (length post)) by lia.
    destruct (run_same (next fuel (pre ++ thrower :: post) request finalHandler)
                (next fuel (pre ++ post) request finalHandler) (S (index st))
                (λ s s' Hs Hi, Hnx Hin (S (index st)) s s' Hs Hi ltac:(lia))
                (mw request) false
                {| index := S (index st); trace := trace st ++ [Invoked (index st)] |}
                {| index := S (index st); trace := trace st' ++ [Invoked (index st)] |})
      as (o & s & s' & -> & -> & Hal' & Hle); [left; simpl; split; [lia|done]|simpl; lia|].
    simpl in Hle. destruct o as [r|e].
    + exists (Ok r), s, s'. split_and!; [done|done|done|lia].
    + destruct (Hnx Hin (S (index st)) (record (ConsoleError e) s) (record (ConsoleError e) s'))
        as (o & t & t' & -> & -> & Hal2 & Hle2); [done|simpl; lia|lia|].
      exists o, t, t'. simpl in Hle2. split_and!; [done|done|done|lia].
  - destruct (decide (index st = length pre)) as [Heq|Hne].
    + (* at the thrower: it throws, the error is logged, [next] goes on *)
      destruct Hal as [[_ Heq']|[? _]]; [|lia].
      rewrite list_lookup_middle by done. rewrite thrower_throws. simpl.
      destruct (IH (record (ConsoleError error)
                      {| index := S (index st);
                         trace := trace st ++ [Invoked (index st)] |}) st')
        as (o & t & t' & -> & Hn' & Hal2 & Hle2).
      * right. simpl. split; lia.
      * rewrite length_app. simpl. lia.
      * apply next_mono in Hn'. rewrite next_unfold in Hn'. rewrite Hn'.
        exists o, t, t'. simpl in Hle2. split_and!; [done|done|done|lia].
    + (* behind the thrower: the same middleware, one position apart *)
      destruct Hal as [[? _]|[_ Heq]]; [lia|].
      assert (Hlook : (pre ++ thrower :: post) !! index st = (pre ++ post) !! index st').
      { rewrite !lookup_app_r by lia.
        replace (index st - length pre) with (S (index st' - length pre)) by lia.
        done. }
      rewrite Hlook.
      destruct ((pre ++ post) !! index st') as [mw|] eqn:Hmw.
      * assert (Hin : index st < length pre + S (length post)).
        { apply lookup_lt_Some in Hmw. rewrite length_app in Hmw. lia. }
        destruct (run_same (next fuel (pre ++ thrower :: post) request finalHandler)
                    (next fuel (pre ++ post) request finalHandler) (S (index st))
                    (λ s s' Hs Hi, Hnx Hin (S (index st)) s s' Hs Hi ltac:(lia))
                    (mw request) false
                    {| index := S (index st); trace := trace st ++ [Invoked (index st)] |}
                    {| index := S (index st'); trace := trace st' ++ [Invoked (index st')] |})
          as (o & s & s' & -> & -> & Hal' & Hle); [right; simpl; split; lia|simpl; lia|].
        simpl in Hle. destruct o as [r|e].
        -- exists (Ok r), s, s'. split_and!; [done|done|done|lia].
        -- destruct (Hnx Hin (S (index st)) (record (ConsoleError e) s)
                       (record (ConsoleError e) s'))
             as (o & t & t' & -> & -> & Hal2 & Hle2); [done|simpl; lia|lia|].
           exists o, t, t'. simpl in Hle2. split_and!; [done|done|done|lia].
      * exists finalHandler, (record FinalHandler st), (record FinalHandler st').
        split_and!; [done|done|right; simpl; split; lia|done].
Qed.

(** X10. A middleware that throws before calling [next()] is skipped: the
    call settles as it would with that middleware left out of the chain. *)
Theorem throwing_middleware_is_skipped :
  fst <$> execute (pre ++ thrower :: post) request finalHandler =
  fst <$> execute (pre ++ post) request finalHandler.
Proof.
  unfold execute.
  destruct (next_aligned (S (length (pre ++ thrower :: post)))
              {| index := 0; trace := [] |} {| index := 0; trace := [] |})
    as (o & s & s' & -> & Hn' & _).
  - left. simpl. split; [lia|done].
  - simpl. lia.
  - destruct (next_settles (pre ++ post) request finalHandler
                (S (length (pre ++ post))) {| index := 0; trace := [] |})
      as (o2 & s2 & Hn2 & _); [simpl; lia|].
    rewrite Hn2. apply next_mono in Hn2.
    replace (S (S (length (pre ++ post)))) with (S (length (pre ++ thrower :: post)))
      in Hn2 by (rewrite !length_app; simpl; lia).
    rewrite Hn2 in Hn'. by injection Hn' as -> _.
Qed.

End Skip.

End Props.

(** Scenario D of the specification: the first middleware throws, the
    second hands on, the terminal operation answers. *)
Lemma throwing_middleware_is_skipped_witness :
  fst <$> execute (MockRequest := unit) [(λ _, Raise (Error "Middleware error")); pass_through]
            () (Ok 200)
  = Some (Ok 200).
Proof.
  exact (eq_trans
           (throwing_middleware_is_skipped [] [pass_through]
              (λ _, Raise (Error "Middleware error")) () (Ok 200)
              (Error "Middleware error") eq_refl)
           eq_refl).
Defined.

(** The short circuit needs the middleware before it to hand on what
    [next()] gave them: behind one that throws after its [next()] returned,
    the pipeline goes on with the slot after the short circuit and the
    terminal operation answers. *)
Example short_circuit_behind_failing_middleware :
  execute (MockRequest := unit)
    [(λ _, AwaitNext (λ _, Raise (Error "after next"))); short_circuit 201;
     pass_through] () (Ok 200)
  = Some (Ok 200,
          {| index := 3;
             trace := [Invoked 0; Invoked 1; ConsoleError (Error "after next");
                       Invoked 2; FinalHandler] |}).
Proof. reflexivity. Qed.

End MiddlewarePipelineProps.

(** ** Event emitter: delivery order, event types, removal *)

Module EventEmitterProps.

Import EventEmitter.

(** [removeAllListeners(event?)]: the wrappers recorded in the map are taken
    off the event target, then the map entry (or the whole map) goes. *)
Definition remove_recorded (event : EventType)
    (eventHandlers : list (Handler * EventListener))
    (t : list (EventType * EventListener)) : list (EventType * EventListener) :=
  foldl (λ t' hl, removeEventListener event hl.2 t') t eventHandlers.

Definition removeAllListeners (event : option EventType) (em : Emitter) : Emitter :=
  match event with
  | Some event =>
      match map_get event (handlerMap em) with
      | Some eventHandlers =>
          {| handlerMap := map_delete event (handlerMap em);
             target := remove_recorded event eventHandlers (target em);
             fresh_id := fresh_id em |}
      | None => em
      end
  | None =>
      {| handlerMap := [];
         target := foldl (λ t eh, remove_recorded eh.1 eh.2 t) (target em)
                     (handlerMap em);
         fresh_id := fresh_id em |}
  end.

(** The wrappers on the event target are closures built before: their
    identities lie below the next one. *)
Definition closures_known (em : Emitter) : Prop :=
  ∀ x, x ∈ target em → id x.2 < fresh_id em.

(** The maps hold each key once, as a [Map] does. *)
Definition maps_wf (em : Emitter) : Prop :=
  NoDup (handlerMap em).*1 ∧
  ∀ ev eventHandlers, (ev, eventHandlers) ∈ handlerMap em → NoDup eventHandlers.*1.

(** Every wrapper on the event target is recorded in the map. *)
Definition recorded (em : Emitter) : Prop :=
  ∀ x, x ∈ target em →
    ∃ eventHandlers hl, (x.1, eventHandlers) ∈ handlerMap em ∧
                        hl ∈ eventHandlers ∧ id hl.2 = id x.2.

Section MapFacts.
Context {K V : Type} `{EqDecision K}.

Lemma map_get_set (k : K) (v : V) (m : list (K * V)) :
  map_get k (map_set k v m) = Some v.
Proof.
  induction m as [|[k' v'] m IH]; simpl.
  - by rewrite decide_True.
  - destruct (decide (k = k')) as [->|Hne]; simpl.
    + by rewrite decide_True.
    + by rewrite decide_False.
Qed.

Lemma map_get_elem (k : K) (v : V) (m : list (K * V)) :
  map_get k m = Some v → (k, v) ∈ m.
Proof.
  induction m as [|[k' v'] m IH]; simpl; [done|].
  destruct (decide (k = k')) as [->|Hne].
  - intros [= ->]. by left.
  - intros H. right. by apply IH.
Qed.

Lemma map_get_None (k : K) (m : list (K * V)) :
  map_get k m = None ↔ k ∉ m.*1.
Proof.
  induction m as [|[k' v'] m IH]; simpl.
  - split; [intros _; by intros ?%elem_of_nil|done].
  - destruct (decide (k = k')) as [->|Hne].
    + split; [done|]. intros Hk. exfalso. apply Hk. by left.
    + rewrite IH. split.
      * intros Hk [?|?]%elem_of_cons; done.
      * intros Hk Hin. apply Hk. by right.
Qed.

Lemma map_delete_keys (k : K) (m : list (K * V)) :
  NoDup m.*1 → (k ∉ (map_delete k m).*1) ∧ NoDup (map_delete k m).*1.
Proof.
  induction m as [|[k' v'] m IH]; intros Hnd; simpl.
  - split; [by intros ?%elem_of_nil|constructor].
  - simpl in Hnd. apply NoDup_cons in Hnd as [Hk' Hnd].
    destruct (decide (k = k')) as [->|Hne]; [done|].
    destruct (IH Hnd) as [Hout Hnd']. simpl. split.
    + intros [?|?]%elem_of_cons; done.
    + apply NoDup_cons. split; [|done].
      intros Hin. apply Hk'. clear -Hin.
      induction m as [|[k2 v2] m IHm]; simpl in *; [done|].
      destruct (decide (k = k2)); [by right|].
      simpl in Hin. apply elem_of_cons in Hin as [->|Hin]; [by left|].
      right. by apply IHm.
Qed.

Lemma map_set_length (k : K) (v : V) (m : list (K * V)) :
  length (map_set k v m) = if map_has k m then length m else S (length m).
Proof.
  unfold map_has. induction m as [|[k' v'] m IH]; simpl; [done|].
  destruct (decide (k = k')); simpl; [done|].
  rewrite IH. by destruct (map_get k m).
Qed.

End MapFacts.

Section Props.
Context {Args : Type}.

Lemma filter_type_remove (event event' : EventType) (l : EventListener)
    (t : list (EventType * EventListener)) :
  event ≠ event' →
  List.filter (λ x, bool_decide (x.1 = event')) (removeEventListener event l t)
  = List.filter (λ x, bool_decide (x.1 = event')) t.
Proof.
  intros Hne. unfold removeEventListener, same.
  induction t as [|[ev l0] t IH]; simpl; [done|].
  destruct (decide (ev = event')) as [->|Hev].
  - rewrite (bool_decide_eq_false_2 (event' = event)) by done. simpl.
    rewrite bool_decide_eq_true_2 by done. by f_equal.
  - rewrite (bool_decide_eq_false_2 (ev = event')) by done.
    destruct (negb _); simpl; [|done].
    by rewrite (bool_decide_eq_false_2 (ev = event')) by done.
Qed.

(** X11. Event types do not interfere: registering or removing a handler
    for one event leaves the calls made by emissions of every other event
    as they were. *)
Theorem other_events_untouched (event event' : EventType) (h : Handler)
    (args : Args) (em : Emitter) :
  event ≠ event' →
  emit event' args (on event h em) = emit event' args em ∧
  emit event' args (off event h em).2 = emit event' args em.
Proof.
  intros Hne. split.
  - unfold emit, on, addEventListener. simpl.
    destruct (existsb _ _); [done|].
    rewrite List.filter_app. simpl.
    rewrite bool_decide_eq_false_2 by done. by rewrite app_nil_r.
  - unfold emit, off.
    destruct (map_get event (handlerMap em)) as [eventHandlers|]; [|done].
    destruct (map_get h eventHandlers) as [l|]; [|done]. simpl.
    by rewrite filter_type_remove.
Qed.

Lemma existsb_same_false (event : EventType) (l : EventListener)
    (t : list (EventType * EventListener)) :
  (∀ x, x ∈ t → id x.2 < id l) → existsb (same event l) t = false.
Proof.
  intros Hlt. apply not_true_is_false. intros (x & Hx & Hs)%existsb_exists.
  apply list_elem_of_In, Hlt in Hx. unfold same in Hs.
  apply andb_prop in Hs as [_ Hid]. apply bool_decide_eq_true in Hid. lia.
Qed.

(** X12. Every [on(event, h)] puts one more call of [h] at the end of the
    calls an emission of [event] makes, also when [h] is registered for the
    event already; [listenerCount] grows only when [h] is new for the event. *)
Theorem on_appends_call (event : EventType) (h : Handler) (args : Args)
    (em : Emitter) :
  closures_known em →
  emit event args (on event h em) = emit event args em ++ [(h, args)] ∧
  closures_known (on event h em) ∧
  listenerCount event (on event h em) =
    (if map_has h (default [] (map_get event (handlerMap em)))
     then listenerCount event em else S (listenerCount event em)).
Proof.
  intros Hknown. split_and!.
  - unfold emit, on, addEventListener. simpl.
    rewrite existsb_same_false by (intros x Hx; by apply Hknown).
    rewrite List.filter_app, fmap_app. simpl.
    by rewrite bool_decide_eq_true_2.
  - unfold closures_known, on, addEventListener. simpl.
    rewrite existsb_same_false by (intros x Hx; by apply Hknown).
    intros x Hx. apply elem_of_app in Hx as [Hx|Hx].
    + specialize (Hknown x Hx). lia.
    + apply list_elem_of_singleton in Hx as ->. simpl. lia.
  - unfold listenerCount, on. cbn [handlerMap].
    rewrite map_get_set, map_set_length.
    assert (Hhas : map_has event (handlerMap em)
                   = match map_get event (handlerMap em) with
                     | Some _ => true | None => false end) by done.
    rewrite Hhas.
    destruct (map_get event (handlerMap em)) as [eventHandlers|] eqn:Hget.
    + by rewrite Hget.
    + by rewrite map_get_set.
Qed.

(** X13. With maps that hold each key once, a successful [off] cannot be
    repeated: the next [off] for the same event and handler answers
    [false] and leaves the emitter as it is. *)
Theorem off_once (event : EventType) (h : Handler) (em : Emitter) :
  maps_wf em →
  (off event h em).1 = true →
  off event h (off event h em).2 = (false, (off event h em).2).
Proof.
  intros [Hnd Hinner]. unfold off at 1 3 4.
  destruct (map_get event (handlerMap em)) as [eventHandlers|] eqn:Hev; [|done].
  destruct (map_get h eventHandlers) as [l|] eqn:Hh; [|done]. intros _. simpl.
  assert (Hgone : map_get h (map_delete h eventHandlers) = None).
  { apply map_get_None. apply map_delete_keys.
    eapply Hinner. by apply map_get_elem. }
  unfold off. simpl.
  destruct (map_delete h eventHandlers) as [|hl rest] eqn:Hdel.
  - assert (map_get event (map_delete event (handlerMap em)) = None) as ->; [|done].
    apply map_get_None. by apply map_delete_keys.
  - rewrite map_get_set. by rewrite Hgone.
Qed.

(** *** Removing everything *)

Lemma removeEventListener_elem (event : EventType) (l : EventListener)
    (t : list (EventType * EventListener)) (x : EventType * EventListener) :
  x ∈ removeEventListener event l t ↔ x ∈ t ∧ same event l x = false.
Proof.
  unfold removeEventListener.
  rewrite !list_elem_of_In, List.filter_In, negb_true_iff. done.
Qed.

Lemma remove_recorded_elem (event : EventType)
    (eventHandlers : list (Handler * EventListener))
    (t : list (EventType * EventListener)) (x : EventType * EventListener) :
  x ∈ remove_recorded event eventHandlers t ↔
  x ∈ t ∧ ∀ hl, hl ∈ eventHandlers → same event hl.2 x = false.
Proof.
  unfold remove_recorded. revert t.
  induction eventHandlers as [|hl0 rest IH]; intros t; simpl.
  - split; [intros Hx; split; [done|by intros ? ?%elem_of_nil]|by intros [? _]].
  - rewrite IH, removeEventListener_elem. split.
    + intros [[Hx Hs] Hrest]. split; [done|].
      intros hl [->|Hin]%elem_of_cons; [done|by apply Hrest].
    + intros [Hx Hall]. split; [split; [done|apply Hall; by left]|].
      intros hl Hin. apply Hall. by right.
Qed.

Lemma remove_all_elem (hm : list (EventType * list (Handler * EventListener)))
    (t : list (EventType * EventListener)) (x : EventType * EventListener) :
  x ∈ foldl (λ t' eh, remove_recorded eh.1 eh.2 t') t hm ↔
  x ∈ t ∧ ∀ ev eventHandlers hl,
            (ev, eventHandlers) ∈ hm → hl ∈ eventHandlers → same ev hl.2 x = false.
Proof.
  revert t. induction hm as [|[ev0 inner0] hm IH]; intros t; simpl.
  - split; [intros Hx; split; [done|by intros ? ? ? ?%elem_of_nil]|by intros [? _]].
  - rewrite IH, remove_recorded_elem. split.
    + intros [[Hx H0] Hrest]. split; [done|].
      intros ev inner hl [[= -> ->]|Hin]%elem_of_cons Hhl; [by apply H0|by eapply Hrest].
    + intros [Hx Hall]. split; [split; [done|]|].
      * intros hl Hhl. eapply Hall; [by left|done].
      * intros ev inner hl Hin Hhl. eapply Hall; [by right|done].
Qed.

(** X14. When every wrapper on the event target is recorded in the map,
    [removeAllListeners()] silences the emitter: no emission calls a
    handler any more and every listener count is zero. *)
Theorem removeAllListeners_silences (event : EventType) (args : Args) (em : Emitter) :
  recorded em →
  emit event args (removeAllListeners None em) = [] ∧
  target (removeAllListeners None em) = [] ∧
  listenerCount event (removeAllListeners None em) = 0.
Proof.
  intros Hrec.
  assert (Ht : target (removeAllListeners None em) = []).
  { simpl. apply elem_of_nil_inv. intros x [Hx Hall]%remove_all_elem.
    destruct (Hrec x Hx) as (inner & hl & Hin & Hhl & Hid).
    specialize (Hall _ _ _ Hin Hhl). unfold same in Hall.
    by rewrite !bool_decide_eq_true_2 in Hall. }
  split_and!; [|done|done]. unfold emit. by rewrite Ht.
Qed.

End Props.

(** Two handlers for one event, one for another. *)
Definition three_listeners : Emitter :=
  on ON_MOCK 3 (on ON_REQUEST 2 (on ON_REQUEST 1 new)).

Lemma three_listeners_known : closures_known three_listeners.
Proof.
  intros x Hx. apply list_elem_of_In in Hx. simpl in Hx.
  destruct Hx as [<-|[<-|[<-|[]]]]; simpl; lia.
Defined.

Lemma three_listeners_wf : maps_wf three_listeners.
Proof.
  split.
  - apply (bool_decide_unpack _). vm_compute. exact I.
  - intros ev eventHandlers Hin. apply list_elem_of_In in Hin. simpl in Hin.
    destruct Hin as [[= <- <-]|[[= <- <-]|[]]];
      apply (bool_decide_unpack _); vm_compute; exact I.
Defined.

Lemma three_listeners_recorded : recorded three_listeners.
Proof.
  intros x Hx. apply list_elem_of_In in Hx. simpl in Hx.
  destruct Hx as [<-|[<-|[<-|[]]]]; simpl.
  - exists [(1, {| id := 0; wraps := 1 |}); (2, {| id := 1; wraps := 2 |})],
           (1, {| id := 0; wraps := 1 |}).
    split_and!; [by left|by left|done].
  - exists [(1, {| id := 0; wraps := 1 |}); (2, {| id := 1; wraps := 2 |})],
           (2, {| id := 1; wraps := 2 |}).
    split_and!; [by left|by right; left|done].
  - exists [(3, {| id := 2; wraps := 3 |})], (3, {| id := 2; wraps := 3 |}).
    split_and!; [by right; left|by left|done].
Defined.

Lemma other_events_untouched_witness :
  emit ON_MOCK "x" (on ON_REQUEST 1 three_listeners) = [(3, "x")] ∧
  emit ON_MOCK "x" (off ON_REQUEST 1 three_listeners).2 = [(3, "x")].
Proof.
  exact (other_events_untouched ON_REQUEST ON_MOCK 1 "x" three_listeners
           ltac:(discriminate)).
Defined.

(** Handler 1 is registered for the event already: the count stays at 2,
    the emission gains a third call. *)
Lemma on_appends_call_witness :
  emit ON_REQUEST "x" (on ON_REQUEST 1 three_listeners)
    = [(1, "x"); (2, "x"); (1, "x")] ∧
  listenerCount ON_REQUEST (on ON_REQUEST 1 three_listeners) = 2.
Proof.
  destruct (on_appends_call ON_REQUEST 1 "x" three_listeners three_listeners_known)
    as (Hemit & _ & Hcount).
  split; [exact Hemit|exact Hcount].
Defined.

Lemma off_once_witness :
  off ON_REQUEST 2 (off ON_REQUEST 2 three_listeners).2
    = (false, (off ON_REQUEST 2 three_listeners).2).
Proof.
  exact (off_once ON_REQUEST 2 three_listeners three_listeners_wf eq_refl).
Defined.

Lemma removeAllListeners_silences_witness :
  emit ON_REQUEST "x" (removeAllListeners None three_listeners) = [] ∧
  target (removeAllListeners None three_listeners) = [] ∧
  listenerCount ON_REQUEST (removeAllListeners None three_listeners) = 0.
Proof.
  exact (removeAllListeners_silences ON_REQUEST "x" three_listeners
           three_listeners_recorded).
Defined.

(** After [on] twice with one handler the first wrapper is on the event
    target without being recorded, and [removeAllListeners()] leaves it
    there. *)
Example unrecorded_wrapper_survives :
  emit ON_REQUEST "x" (removeAllListeners None (on ON_REQUEST 1 (on ON_REQUEST 1 new)))
    = [(1, "x")].
Proof. reflexivity. Qed.

End EventEmitterProps.

(** ** State stores: isolation, key order, deletion, views, updaters *)

Module StateStoreProps.

Import StateStore.

Definition clearAll (m : Manager) : Manager :=
  {| stores := []; store_heap := store_heap m; objects := objects m;
     warnings := warnings m |}.

(** [n] calls of [set] with the same argument, one after the other. *)
Fixpoint set_times (n : nat) (arg : SetArg) (s : StateStore) (h : Heap)
    : Result (StateStore * Heap) :=
  match n with
  | 0 => Ok (s, h)
  | S n' => bind (set arg s h) (λ '(s', h'), set_times n' arg s' h')
  end.

(** The updater applied [n] times, each time to the value and heap the
    application before it returned. *)
Fixpoint iterate (n : nat) (updater : Value → Heap → Result (Value * Heap))
    (v : Value) (h : Heap) : Result (Value * Heap) :=
  match n with
  | 0 => Ok (v, h)
  | S n' => bind (updater v h) (λ '(v', h'), iterate n' updater v' h')
  end.

(** [current => ({ prev: current })]: a new object that refers to the
    current value. *)
Definition push_prev : Value → Heap → Result (Value * Heap) :=
  λ current h,
    let l := fresh (dom h) in
    Ok (VRef l,
        <[l := {| proto := VRef object_prototype;
                  props := {[ "prev" := current ]} |}]> h).

Lemma map_get_set_ne {V : Type} (k k' : string) (v : V) (m : list (string * V)) :
  k ≠ k' → map_get k' (map_set k v m) = map_get k' m.
Proof.
  intros Hne. induction m as [|[k0 v0] m IH]; simpl.
  - by rewrite decide_False.
  - destruct (decide (k = k0)) as [->|Hk]; simpl.
    + by rewrite !decide_False.
    + destruct (decide (k' = k0)); [done|apply IH].
Qed.

Lemma createStore_fresh (key : string) (v : Value) (m : Manager) :
  hasStore key m = false →
  createStore key v m =
    (Some (fresh (dom (store_heap m))),
     {| stores := stores m ++ [(key, fresh (dom (store_heap m)))];
        store_heap := <[fresh (dom (store_heap m)) := {| data := v |}]> (store_heap m);
        objects := objects m; warnings := warnings m |}).
Proof.
  intros Hhas. unfold createStore. rewrite Hhas. f_equal. f_equal.
  apply RouteMatcher.map_set_fresh. intros Hin.
  apply RouteMatcherProps.map_has_keys in Hin. unfold hasStore in Hhas. congruence.
Qed.

(** X15. [getStore] finds the store [createStore] answered with, under
    that key; the stores under other keys and every store object created
    before are left as they were. *)
Theorem createStore_getStore (key : string) (v : Value) (m : Manager) :
  let r := createStore key v m in
  getStore key r.2 = r.1 ∧
  (∀ key', key' ≠ key → getStore key' r.2 = getStore key' m) ∧
  (∀ l s, store_heap m !! l = Some s → store_heap r.2 !! l = Some s).
Proof.
  intros r. unfold r, createStore, getStore.
  destruct (hasStore key m) eqn:Hhas; simpl.
  - by split_and!.
  - split_and!.
    + apply map_get_set_eq.
    + intros key' Hne. by apply map_get_set_ne.
    + intros l s Hl. rewrite lookup_insert_ne; [done|].
      intros <-. pose proof (is_fresh (dom (store_heap m))) as Hf.
      apply not_elem_of_dom in Hf. congruence.
Qed.

(** X16. [getStoreKeys] lists the keys in the order the stores were
    created: a new key goes to the end, a key in use changes nothing. *)
Theorem getStoreKeys_order (key : string) (v : Value) (m : Manager) :
  getStoreKeys (createStore key v m).2 =
    if hasStore key m then getStoreKeys m else getStoreKeys m ++ [key].
Proof.
  destruct (hasStore key m) eqn:Hhas.
  - unfold createStore. by rewrite Hhas.
  - rewrite createStore_fresh by done. unfold getStoreKeys. simpl.
    by rewrite fmap_app.
Qed.

(** X17. After [deleteStore(key)] the key is free again: [createStore]
    makes a new store holding the new value, without a warning, and the
    store that was registered under the key before keeps its own value. *)
Theorem deleteStore_then_createStore (key : string) (v : Value) (m : Manager) :
  NoDup (stores m).*1 →
  let m1 := (deleteStore key m).2 in
  let r := createStore key v m1 in
  hasStore key m1 = false ∧
  (∃ l, r.1 = Some l ∧ store_heap m !! l = None) ∧
  held r.1 r.2 = Some v ∧
  warnings r.2 = warnings m ∧
  (∀ l s, store_heap m !! l = Some s → store_heap r.2 !! l = Some s).
Proof.
  intros Hnd m1 r.
  assert (Hfree : hasStore key m1 = false).
  { apply not_true_is_false. unfold hasStore, m1, deleteStore. simpl.
    rewrite RouteMatcherProps.map_has_keys.
    rewrite RouteMatcherProps.map_delete_filter by done.
    intros ([k l] & Hk & Hin)%list_elem_of_fmap.
    apply list_elem_of_filter in Hin as [Hne _]. simpl in *. by subst. }
  unfold r. rewrite createStore_fresh by done. simpl.
  pose proof (is_fresh (dom (store_heap m))) as Hf. apply not_elem_of_dom in Hf.
  split_and!; [done| | |done|].
  - by eexists.
  - unfold held. simpl. by rewrite lookup_insert_eq.
  - intros l s Hl. rewrite lookup_insert_ne; [done|]. intros <-. congruence.
Qed.

(** *** Views *)

(** X18. A value for which [typeof] answers ["object"] never leaves a view
    unwrapped: a read of a property path through a view yields a primitive,
    a function as it is, or a proxy, whose [set] and [deleteProperty] traps
    throw. *)
Theorem views_wrap_objects (h : Heap) (s : StateStore) (props : list string)
    (v : View) :
  read h (get s) props = Some v →
  (∀ l, v ≠ Direct (VRef l)) ∧
  (∀ target, v = Proxy target → ∀ prop w,
     proxy_set h target prop w = Throw readonly_error ∧
     proxy_deleteProperty h target prop = Throw readonly_error).
Proof.
  intros Hread. split; [|done].
  assert (Hview : ∀ view, (∀ l, view ≠ Direct (VRef l)) →
            read h view props = Some v → ∀ l, v ≠ Direct (VRef l)).
  { clear Hread. induction props as [|prop rest IH]; intros view Hv Hread.
    - simpl in Hread. by injection Hread as <-.
    - simpl in Hread. destruct view as [w|target]; [done|].
      unfold proxy_get in Hread.
      destruct (get_property h target prop) as [value|]; simpl in Hread; [|done].
      eapply IH; [|exact Hread]. by destruct value. }
  apply (Hview (get s)); [|done].
  unfold get, createReadonlyProxy. by destruct (data s).
Qed.

(** *** Updaters in sequence *)

(** X19. [set(updater)] called [n] times applies the updater [n] times,
    each application to the value and the heap the one before it left: the
    store ends up holding the [n]-fold application to the initial value, and
    the sequence throws when one of the applications does. *)
Theorem updaters_compose (n : nat)
    (updater : Value → Heap → Result (Value * Heap)) (s : StateStore) (h : Heap) :
  set_times n (Update updater) s h =
    bind (iterate n updater (data s) h) (λ '(v, h'), Ok ({| data := v |}, h')).
Proof.
  revert s h. induction n as [|n IH]; intros s h; simpl.
  - by destruct s.
  - destruct (updater (data s) h) as [[v h']|e]; simpl; [|done]. apply IH.
Qed.

Lemma deleteStore_then_createStore_witness :
  let m := (createStore "users" (VNum 1) new).2 in
  let r := createStore "users" (VNum 2) (deleteStore "users" m).2 in
  held r.1 r.2 = Some (VNum 2) ∧ warnings r.2 = [] ∧
  getStore "users" m = Some 0 ∧
  store_heap r.2 !! 0 = Some {| data := VNum 1 |}.
Proof.
  intros m r.
  destruct (deleteStore_then_createStore "users" (VNum 2) m)
    as (_ & _ & Hheld & Hwarn & Hold).
  - apply (bool_decide_unpack _). vm_compute. exact I.
  - split_and!; [exact Hheld|exact Hwarn|reflexivity|].
    exact (Hold 0 {| data := VNum 1 |} eq_refl).
Defined.

(** [{ user: { name: "John" }, greet() {} }]: the nested object comes
    back as a proxy, the method as the function it is. *)
Definition user_heap : Heap :=
  <[21 := {| proto := VRef object_prototype;
             props := {[ "name" := VStr "John" ]} |}]>
    (<[20 := {| proto := VRef object_prototype;
                props := <["greet" := VFun 30]> {[ "user" := VRef 21 ]} |}]>
       {[ object_prototype := Object_prototype ]}).

Lemma views_wrap_objects_witness :
  read user_heap (get {| data := VRef 20 |}) ["user"] = Some (Proxy 21) ∧
  (∀ l, Proxy 21 ≠ Direct (VRef l)) ∧
  read user_heap (get {| data := VRef 20 |}) ["greet"] = Some (Direct (VFun 30)) ∧
  read user_heap (get {| data := VRef 20 |}) ["user"; "name"]
    = Some (Direct (VStr "John")).
Proof.
  split_and!; [reflexivity| |reflexivity|reflexivity].
  apply (views_wrap_objects user_heap {| data := VRef 20 |} ["user"] (Proxy 21)).
  reflexivity.
Defined.

(** Three calls with an updater that wraps the current value: the new view
    reaches the initial object three steps down, each call having seen the
    result of the call before it. *)
Lemma updaters_compose_witness :
  ∃ s' h',
    set_times 3 (Update push_prev) counter_store counter_heap = Ok (s', h') ∧
    read h' (get s') ["prev"; "prev"; "prev"; "count"] = Some (Direct (VNum 0)) ∧
    read h' (get s') ["prev"; "prev"; "prev"; "prev"] = Some (Direct VUndefined).
Proof.
  rewrite updaters_compose. eexists _, _. split_and!; reflexivity.
Defined.

End StateStoreProps.

(** ** Fetch wrapper: transparency, handler failures, event payloads *)

Module FetchWrapperProps.

Import RouteMatcher MiddlewarePipeline EventEmitter RequestParser FetchWrapper.

Section Props.
Context {RawCall Body : Type}.

Local Abbreviation Request := (MockRequest Body (gmap string string)).
Local Abbreviation Handler := (Request → Result Response).

Variable toUpperCase : string → string.
Variable parse : RawCall → Result Request.
Variable originalFetch : RawCall → Result Response.
Variable middlewares : list (Middleware Request Response).

Section WithRoutes.
Variable routes : Routes Handler.

Local Abbreviation wrappedFetch :=
  (FetchWrapper.wrappedFetch toUpperCase parse originalFetch routes middlewares).

(** X20. Forwarding is transparent: a call that is not matched (no route,
    or parsing or matching failed) settles exactly as the real fetch
    settles for the same arguments, after one ON_NETWORK and no ON_MOCK. *)
Theorem forwarding_is_transparent (input : RawCall) :
  forwarded toUpperCase parse routes input →
  ∃ evs,
    wrappedFetch input = Some (originalFetch input, evs) ∧
    count ON_NETWORK evs = 1 ∧ count ON_MOCK evs = 0 ∧
    count ON_RESPONSE evs = (if is_ok (originalFetch input) then 1 else 0).
Proof.
  intros Hfwd.
  destruct (wrappedFetch_forwarded toUpperCase parse originalFetch routes
              middlewares input Hfwd) as (mo & pre & -> & Hn & Hr & Hm).
  unfold after, forwardToOriginalFetch.
  destruct (originalFetch input) as [response|error]; simpl;
    eexists; (split; [done|]); rewrite !count_app, Hn, Hr, Hm; done.
Qed.


End WithRoutes.

(** With no route registered the wrapper changes no outcome: every call
    settles as the real fetch settles for its arguments. *)
Lemma no_routes_no_mocks (input : RawCall) :
  fst <$> FetchWrapper.wrappedFetch toUpperCase parse originalFetch [] middlewares input
  = Some (originalFetch input).
Proof.
  unfold FetchWrapper.wrappedFetch, after, forwardToOriginalFetch.
  destruct (parse input) as [rq|e]; simpl;
    by destruct (originalFetch input).
Qed.

End Props.

Section HandlerOutcome.
Context {RawCall Body : Type}.

Local Abbreviation Request := (MockRequest Body (gmap string string)).
Local Abbreviation Handler := (Request → Result Response).

Variable toUpperCase : string → string.
Variable parse : RawCall → Result Request.
Variable originalFetch : RawCall → Result Response.
Variable routes : Routes Handler.

(** X22. Behind middleware that only hand on, a mocked call resolves with
    the handler's response, and when the handler throws, with the 500
    response carrying the error's message; the real fetch plays no part
    and ON_RESPONSE reports that same response. *)
Theorem handler_outcome (n : nat) (input : RawCall) (mockRequest : Request)
    (matchResult : MatchResult Handler) :
  parse input = Ok mockRequest →
  match_ toUpperCase routes (method mockRequest) (path mockRequest)
    = Ok (Some matchResult) →
  let requestWithParams := createWithParams mockRequest (mr_params matchResult) in
  let response :=
    match mr_handler matchResult requestWithParams with
    | Ok r => r
    | Throw handlerError => handler_error_response handlerError
    end in
  FetchWrapper.wrappedFetch toUpperCase parse originalFetch routes
    (replicate n pass_through) input =
    Some (Ok response,
          [{| event := ON_REQUEST; request := Some mockRequest; response := None |};
           {| event := ON_MOCK; request := Some requestWithParams; response := None |};
           {| event := ON_RESPONSE; request := Some requestWithParams;
              response := Some response |}]).
Proof.
  intros Hparse Hmatch rq response. unfold FetchWrapper.wrappedFetch.
  rewrite Hparse, Hmatch. fold rq.
  assert (Hfinal : finalHandler matchResult rq = Ok response).
  { unfold finalHandler, response. by destruct (mr_handler matchResult rq). }
  rewrite Hfinal.
  assert (Hexec : execute (replicate n pass_through) rq (Ok response) =
                  Some (Ok response,
                        {| index := n;
                           trace := (Invoked <$> seq 0 n) ++ [FinalHandler] |})).
  { unfold execute. rewrite length_replicate.
    rewrite <- (app_nil_r (replicate n pass_through)).
    replace (S n) with (1 + n) by done.
    apply (MiddlewarePipelineProps.next_pass_through n [] rq (Ok response) 1
             response _ n 0 []); [done|].
    rewrite next_unfold. simpl.
    rewrite lookup_ge_None_2 by (rewrite app_nil_r, length_replicate; lia).
    done. }
  by rewrite Hexec.
Qed.

End HandlerOutcome.

(** A handler that throws. *)
Definition failing_handler
    : MockRequest unit (gmap string string) → Result Response :=
  λ _, Throw (Error "boom").

Definition failing_routes
    : Routes (MockRequest unit (gmap string string) → Result Response) :=
  match register toUpperCase_ascii pathToRegexp_segments GET "/users/:id"
          failing_handler no_options [] with
  | Ok routes => routes
  | Throw _ => []
  end.

Lemma forwarding_is_transparent_witness :
  ∃ evs,
    wrappedFetch toUpperCase_ascii parse_path network_down mock_routes
      [pass_through] "/users/%" = Some (Throw (TypeError "Failed to fetch"), evs) ∧
    count ON_NETWORK evs = 1 ∧ count ON_MOCK evs = 0 ∧ count ON_RESPONSE evs = 0.
Proof.
  apply (forwarding_is_transparent toUpperCase_ascii parse_path network_down
           [pass_through] mock_routes "/users/%").
  right. right. eexists _, _. split; reflexivity.
Defined.


Lemma handler_outcome_witness :
  fst <$> wrappedFetch toUpperCase_ascii parse_path network_down failing_routes
            [pass_through; pass_through] "/users/42"
  = Some (Ok {| status := 500;
                response_headers := [("Content-Type", "application/json")];
                response_body := Json [("error", "Handler error");
                                       ("message", "boom")] |}).
Proof.
  exact (f_equal (fmap fst)
           (handler_outcome toUpperCase_ascii parse_path network_down failing_routes
              2 "/users/42"
              {| body := (); baseUrl := "http://localhost"; method := "GET";
                 params := ∅; query := ∅; path := "/users/42";
                 host := "localhost"; hostname := "localhost"; headers := ∅ |}
              {| mr_handler := failing_handler; mr_params := {["id" := "42"]};
                 mr_options := no_options |} eq_refl eq_refl)).
Defined.

End FetchWrapperProps.

(** ** Installing and removing the wrapper (fetch-wrapper.ts, api-mock.ts) *)

Module Lifecycle.

(** What [globalThis.fetch] can hold: a function of the environment, or the
    bound [wrappedFetch] of a wrapper that forwards to [original]. *)
Inductive FetchFn : Type :=
| Native (n : nat)
| Wrapped (original : FetchFn).

(** The fields of a [FetchWrapper] that [setup] and [teardown] use. *)
Record FetchWrapper : Type := { originalFetch : FetchFn; isSetup : bool }.

(** The constructor captures the fetch of the moment. *)
Definition construct (globalFetch : FetchFn) : FetchWrapper :=
  {| originalFetch := globalFetch; isSetup := false |}.

(** [setup], [teardown]: the wrapper and [globalThis.fetch] afterwards. *)
Definition setup (fw : FetchWrapper) (globalFetch : FetchFn)
    : FetchWrapper * FetchFn :=
  if isSetup fw then (fw, globalFetch)
  else ({| originalFetch := originalFetch fw; isSetup := true |},
        Wrapped (originalFetch fw)).

Definition teardown (fw : FetchWrapper) (globalFetch : FetchFn)
    : FetchWrapper * FetchFn :=
  if negb (isSetup fw) then (fw, globalFetch)
  else ({| originalFetch := originalFetch fw; isSetup := false |}, originalFetch fw).

Definition isActive (fw : FetchWrapper) : bool := isSetup fw.

Section ApiMock.
(** Handlers and middleware are opaque here. *)
Context {MockHandler Middleware : Type}.

(** The singleton and the global it patches. *)
Record ApiMock : Type := {
  routeMatcher : RouteMatcher.Routes MockHandler;
  middlewarePipeline : list Middleware;
  eventEmitter : EventEmitter.Emitter;
  stateManager : StateStore.Manager;
  fetchWrapper : FetchWrapper;
  isInitialized : bool;
  globalFetch : FetchFn
}.

Definition api_setup (a : ApiMock) : ApiMock :=
  if isInitialized a then a
  else
    let fw := setup (construct (globalFetch a)) (globalFetch a) in
    {| routeMatcher := routeMatcher a;
       middlewarePipeline := middlewarePipeline a;
       eventEmitter := eventEmitter a;
       stateManager := stateManager a;
       fetchWrapper := fw.1;
       isInitialized := true;
       globalFetch := fw.2 |}.

Definition api_cleanup (a : ApiMock) : ApiMock :=
  let fw := if isInitialized a then teardown (fetchWrapper a) (globalFetch a)
            else (fetchWrapper a, globalFetch a) in
  {| routeMatcher := RouteMatcher.clear (routeMatcher a);
     middlewarePipeline := [];
     eventEmitter := EventEmitterProps.removeAllListeners None (eventEmitter a);
     stateManager := StateStoreProps.clearAll (stateManager a);
     fetchWrapper := fw.1;
     isInitialized := false;
     globalFetch := fw.2 |}.

Definition api_isActive (a : ApiMock) : bool :=
  isInitialized a && isActive (fetchWrapper a).

(** X23. [setup] on a mock that is not initialized installs a wrapper
    around the fetch of that moment, also when the fetch was replaced since
    the mock was built; a further [setup] changes nothing; [cleanup] puts
    that fetch back, empties routes, middleware, listener map and store map,
    and leaves the mock inactive. *)
Theorem setup_cleanup (a : ApiMock) :
  isInitialized a = false →
  globalFetch (api_setup a) = Wrapped (globalFetch a) ∧
  api_isActive (api_setup a) = true ∧
  api_setup (api_setup a) = api_setup a ∧
  let a' := api_cleanup (api_setup a) in
  globalFetch a' = globalFetch a ∧
  api_isActive a' = false ∧
  routeMatcher a' = [] ∧ middlewarePipeline a' = [] ∧
  EventEmitter.handlerMap (eventEmitter a') = [] ∧
  StateStore.stores (stateManager a') = [].
Proof.
  intros Hinit. unfold api_setup. rewrite Hinit. simpl. by split_and!.
Qed.

End ApiMock.

(** X24. The wrapper keeps the fetch it captured when it was built:
    [setup] twice is [setup] once, [teardown] puts the captured fetch back
    whatever [globalThis.fetch] holds by then, and [teardown] without
    [setup] changes nothing. *)
Theorem teardown_restores_captured (g g' : FetchFn) :
  let fw := construct g in
  setup (setup fw g).1 (setup fw g).2 = setup fw g ∧
  (teardown (setup fw g).1 g').2 = g ∧
  isActive (teardown (setup fw g).1 g').1 = false ∧
  teardown fw g' = (fw, g').
Proof. by split_and!. Qed.

Lemma setup_cleanup_witness :
  let a := {| routeMatcher := RouteMatcher.users_routes;
              middlewarePipeline := [0; 1];
              eventEmitter := EventEmitterProps.three_listeners;
              stateManager := (StateStore.createStore "users" (StateStore.VNum 1)
                                 StateStore.new).2;
              fetchWrapper := construct (Native 0);
              isInitialized := false;
              globalFetch := Native 7 |} in
  globalFetch (api_setup a) = Wrapped (Native 7) ∧
  globalFetch (api_cleanup (api_setup a)) = Native 7 ∧
  routeMatcher (api_cleanup (api_setup a)) = [].
Proof.
  intros a.
  destruct (setup_cleanup a eq_refl) as (Hg & _ & _ & Hg' & _ & Hr & _).
  split_and!; [exact Hg|exact Hg'|exact Hr].
Defined.

End Lifecycle.

(** ** Response builder (response-builder.ts) *)

Module ResponseBuilder.

Section Builder.
(** The data a response is built from, the object literal with the given
    string members, [JSON.stringify], and the members of [ResponseInit] the
    builder hands on untouched ([statusText]). *)
Context {Json Rest : Type}.
Variable object : list (string * string) → Json.
Variable JSON_stringify : Json → string.

(** The options of a builder; [headers] is a plain object. *)
Record ResponseInit : Type := {
  status : option Z;
  headers : option (gmap string string);
  rest : Rest
}.

(** The arguments a builder passes to [new Response(body, init)]. *)
Record ResponseArgs : Type := {
  arg_body : option string;
  arg_status : Z;
  arg_headers : gmap string string;
  arg_rest : Rest
}.

(** [{ 'Content-Type': contentType, ...headers }]. *)
Definition with_content_type (contentType : string)
    (headers : gmap string string) : gmap string string :=
  headers ∪ {[ "Content-Type" := contentType ]}.

(** [json]; [data] is [None] for [undefined]. *)
Definition json (data : option Json) (options : ResponseInit) : ResponseArgs :=
  {| arg_body := Some (match data with
                       | None => "undefined"
                       | Some d => JSON_stringify d
                       end);
     arg_status := default 200%Z (status options);
     arg_headers := with_content_type "application/json"
                      (default ∅ (headers options));
     arg_rest := rest options |}.

Definition text (data : string) (options : ResponseInit) : ResponseArgs :=
  {| arg_body := Some data;
     arg_status := default 200%Z (status options);
     arg_headers := with_content_type "text/plain" (default ∅ (headers options));
     arg_rest := rest options |}.

Definition empty (options : ResponseInit) : ResponseArgs :=
  {| arg_body := None;
     arg_status := default 204%Z (status options);
     arg_headers := default ∅ (headers options);
     arg_rest := rest options |}.

(** [error]; [code] is [None] when the option is missing, and an empty
    code is as good as none. *)
Definition error (message : string) (code : option string)
    (options : ResponseInit) : ResponseArgs :=
  let errorData :=
    object (("error", message) ::
            match code with
            | Some (String c s) => [("code", String c s)]
            | _ => []
            end) in
  json (Some errorData)
    {| status := Some (default 500%Z (status options));
       headers := Some (default ∅ (headers options));
       rest := rest options |}.

(** X25. [error] goes through [json] without taking its defaults: the
    status is the caller's or 500; the body is the serialised record with
    [error] and, only for a non-empty code, [code]; the caller's headers
    are all kept and win over the default content type. *)
Theorem error_through_json (message : string) (code : option string)
    (options : ResponseInit) :
  let r := error message code options in
  arg_status r = default 500%Z (status options) ∧
  (code = None ∨ code = Some "" →
   arg_body r = Some (JSON_stringify (object [("error", message)]))) ∧
  (∀ c, code = Some c → c ≠ "" →
   arg_body r = Some (JSON_stringify (object [("error", message); ("code", c)]))) ∧
  (∀ k, arg_headers r !! k =
        match default ∅ (headers options) !! k with
        | Some v => Some v
        | None => if decide (k = "Content-Type")
                  then Some "application/json" else None
        end) ∧
  arg_rest r = rest options.
Proof.
  intros r. split_and!; [done| | |intros k|done].
  - by intros [->| ->].
  - intros c -> Hc. by destruct c.
  - unfold r, error, json, with_content_type. simpl.
    rewrite lookup_union.
    destruct (default ∅ (headers options) !! k) as [v|] eqn:Hk; simpl.
    + by destruct ({[ "Content-Type" := "application/json" ]} !! k).
    + destruct (decide (k = "Content-Type")) as [->|Hne].
      * by rewrite lookup_singleton_eq.
      * by rewrite lookup_singleton_ne.
Qed.

End Builder.

(** A caller's status and headers, a code, and a content type of its own. *)
Lemma error_through_json_witness :
  let r := error (Rest := unit) (λ fields, fields) (λ _, "{...}") "Not found"
             (Some "E404")
             {| status := Some 404%Z;
                headers := Some {[ "Content-Type" := "application/problem+json" ]};
                rest := () |} in
  arg_status r = 404%Z ∧
  arg_headers r !! "Content-Type" = Some "application/problem+json".
Proof.
  intros r.
  destruct (error_through_json (Rest := unit) (λ fields, fields) (λ _, "{...}")
              "Not found" (Some "E404")
              {| status := Some 404%Z;
                 headers := Some {[ "Content-Type" := "application/problem+json" ]};
                 rest := () |}) as (Hs & _ & _ & Hh & _).
  split; [exact Hs|exact (Hh "Content-Type")].
Defined.

End ResponseBuilder.
